(** * Simulation-based combinational equivalence checking

    A shallow embedding of [include/mockturtle/algorithms/simulation_cec.hpp]:
    the statistics record, the round simulator [tt_simulator], the driver
    [simulation_cec_impl] ([run] and [calculate_split_var]) and the entry
    point [simulation_cec].

    Machine integers are [uint32_t] values kept in [Z] with the wrap-around
    written out.  A shift whose count reaches the width of its (promoted) left
    operand has no defined behaviour in C++; such a step yields [Undef]. *)

From Stdlib Require Import ZArith List Bool Lia.
Import ListNotations.
Local Open Scope Z_scope.

(* ================================================================== *)
(** ** Outcomes of a computation *)

Inductive outcome (A : Type) : Type :=
| Ret (a : A)      (* the computation returns [a] *)
| Undef            (* the computation performs an undefined shift *)
| OutOfFuel.       (* the model ran out of loop fuel (shown unreachable) *)

Arguments Ret {A} a.
Arguments Undef {A}.
Arguments OutOfFuel {A}.

Definition bind {A B : Type} (c : outcome A) (k : A -> outcome B) : outcome B :=
  match c with
  | Ret a => k a
  | Undef => Undef
  | OutOfFuel => OutOfFuel
  end.

Notation "x <- c ;; k" := (bind c (fun x => k))
  (at level 61, c at next level, right associativity).
Notation "' p <- c ;; k" := (bind c (fun p => k))
  (at level 61, p pattern, c at next level, right associativity).

(* ================================================================== *)
(** ** 32-bit machine arithmetic *)

Definition u32_modulus : Z := 2 ^ 32.

(** Conversion to [uint32_t]. *)
Definition wrap (x : Z) : Z := x mod u32_modulus.

Definition u32_add (a b : Z) : Z := wrap (a + b).
Definition u32_sub (a b : Z) : Z := wrap (a - b).
Definition u32_mul (a b : Z) : Z := wrap (a * b).

(** [a << k] on a non-negative [int] [a], the result then converted to
    [unsigned]: defined when [k] is below the width and [a * 2^k] fits the
    unsigned type. *)
Definition int_shl (a k : Z) : outcome Z :=
  if (0 <=? k) && (k <? 32) && (a * 2 ^ k <? u32_modulus)
  then Ret (a * 2 ^ k)
  else Undef.

(** [a >> k] on a [uint32_t] [a]: defined when [k] is below the width. *)
Definition u32_shr (a k : Z) : outcome Z :=
  if (0 <=? k) && (k <? 32) then Ret (Z.shiftr a k) else Undef.

(* ================================================================== *)
(** ** Truth tables *)

(** Modelled from the spec: [kitty::dynamic_truth_table] is not part of the
    sources at hand.  Following sections 3 and 9 of the specification it is a
    bit vector of [2 ^ num_vars] positions with value semantics; bit [p] is the
    function's value on the assignment whose variable [i] is bit [i] of [p]. *)
Record dynamic_truth_table : Type :=
  { num_vars : Z;
    bits : Z }.

(** [kitty::dynamic_truth_table tt( n )]: the constant-0 function. *)
Definition tt_create (n : Z) : dynamic_truth_table :=
  {| num_vars := n; bits := 0 |}.

(** [~tt]: bitwise complement inside the table's [2 ^ num_vars] positions. *)
Definition tt_not (t : dynamic_truth_table) : dynamic_truth_table :=
  {| num_vars := num_vars t;
     bits := Z.ldiff (Z.ones (2 ^ num_vars t)) (bits t) |}.

(** [blk], a block of [len] bits, laid out [2 ^ k] times side by side. *)
Fixpoint replicate_block (k : nat) (len blk : Z) : Z :=
  match k with
  | O => blk
  | S k' =>
      let half := replicate_block k' len blk in
      Z.lor half (Z.shiftl half (len * 2 ^ Z.of_nat k'))
  end.

(** The pattern of variable [i] over [n] variables: period [2 ^ (i+1)], each
    period made of [2 ^ i] zeros followed by [2 ^ i] ones. *)
Definition nth_var_bits (n i : Z) : Z :=
  Z.land
    (replicate_block (Z.to_nat (n - i - 1)) (2 ^ (i + 1))
       (Z.shiftl (Z.ones (2 ^ i)) (2 ^ i)))
    (Z.ones (2 ^ n)).

(** [kitty::create_nth_var( tt, i )]. *)
Definition create_nth_var (t : dynamic_truth_table) (i : Z) : dynamic_truth_table :=
  {| num_vars := num_vars t; bits := nth_var_bits (num_vars t) i |}.

(** [kitty::is_const0( tt )]. *)
Definition is_const0 (t : dynamic_truth_table) : bool := bits t =? 0.

(** The value of the function at position [p]. *)
Definition get_bit (t : dynamic_truth_table) (p : Z) : bool := Z.testbit (bits t) p.

(* ================================================================== *)
(** ** Statistics and the round simulator *)

Record simulation_cec_stats : Type :=
  { split_var : Z;
    rounds : Z }.

(** The default member initialisers [split_var{ 0 }], [rounds{ 0 }]. *)
Definition default_stats : simulation_cec_stats :=
  {| split_var := 0; rounds := 0 |}.

Record tt_simulator : Type :=
  { _split_var : Z;
    _round : Z }.

Definition compute_constant (sim : tt_simulator) (value : bool) : dynamic_truth_table :=
  let tt := tt_create (_split_var sim) in
  if value then tt_not tt else tt.

Definition compute_pi (sim : tt_simulator) (index : Z) : outcome dynamic_truth_table :=
  let tt := tt_create (_split_var sim) in
  if index <? _split_var sim then
    Ret (create_nth_var tt index)
  else
    sh <- u32_shr (_round sim) (u32_sub index (_split_var sim)) ;;
    let val := negb (Z.land sh 1 =? 0) in
    if Bool.eqb val false then Ret (tt_not tt) else Ret tt.

Definition compute_not (sim : tt_simulator) (value : dynamic_truth_table) : dynamic_truth_table :=
  tt_not value.

(* ================================================================== *)
(** ** The split-variable calculator *)

(** The [while] loop of [calculate_split_var], entered with the current [m]. *)
Fixpoint split_var_loop (fuel : nat) (num_pis num_nodes m : Z) : outcome Z :=
  match fuel with
  | O => OutOfFuel
  | S fuel' =>
      if m <=? num_pis then
        pw <- int_shl 1 (u32_sub m 3) ;;
        if u32_add 32 (u32_mul pw num_nodes) <=? 2 ^ 29
        then split_var_loop fuel' num_pis num_nodes (u32_add m 1)
        else Ret (u32_sub m 1)
      else Ret (u32_sub m 1)
  end.

(** Every pass of the loop shifts by [m - 3], which is defined only below the
    width, so the loop body runs at most for [m = 7 .. 35]. *)
Definition split_var_fuel : nat := 32.

Definition calculate_split_var (num_pis num_nodes : Z) : outcome Z :=
  if num_pis <=? 6 then Ret num_pis
  else split_var_loop split_var_fuel num_pis num_nodes 7.

(* ================================================================== *)
(** ** The collaborators of the driver *)

(** Modelled from the spec: the logic network, the miter construction
    ([miter.hpp]) and the generic simulation engine ([simulation.hpp]) are
    collaborators outside the sources at hand.  Section 6 of the specification
    gives what the driver consumes: the primary-input count and the node
    count (both [uint32_t]), a function from a network and a simulator
    capability to one truth table per primary output, in output order, and a
    miter that yields a combined network or nothing. *)
Class Network (Ntk : Type) : Type :=
  { num_pis : Ntk -> Z;
    size : Ntk -> Z;
    simulate : Ntk -> tt_simulator -> outcome (list dynamic_truth_table);
    miter : Ntk -> Ntk -> option Ntk;
    num_pis_u32 : forall ntk, 0 <= num_pis ntk < u32_modulus;
    size_u32 : forall ntk, 0 <= size ntk < u32_modulus }.

(** What an execution does with the simulation engine and with the outputs it
    returns, in program order. *)
Inductive event : Type :=
| EvSimulate (round : Z)                   (* [simulate] called for a round *)
| EvIsConst0 (round : Z) (output : nat).   (* output [output] tested for zero *)

(* ================================================================== *)
(** ** The driver: [simulation_cec_impl] *)

(** The inner [for( auto& it : tt_po )] of [run]: [true] when the scan ends
    without [return false]. *)
Fixpoint scan_outputs (r : Z) (k : nat) (tt_po : list dynamic_truth_table)
  : bool * list event :=
  match tt_po with
  | [] => (true, [])
  | it :: rest =>
      if Bool.eqb (is_const0 it) false
      then (false, [EvIsConst0 r k])
      else let '(b, tr) := scan_outputs r (S k) rest in (b, EvIsConst0 r k :: tr)
  end.

Section Driver.
Context {Ntk : Type} `{Network Ntk}.

(** The outer [for] of [run], with [todo] rounds left from round [r] on. *)
Fixpoint round_loop (ntk : Ntk) (sv : Z) (todo : nat) (r : Z)
  : outcome (bool * list event) :=
  match todo with
  | O => Ret (true, [])
  | S todo' =>
      tt_po <- simulate ntk {| _split_var := sv; _round := r |} ;;
      let '(clean, tr) := scan_outputs r 0 tt_po in
      if clean then
        '(b, tr') <- round_loop ntk sv todo' (u32_add r 1) ;;
        Ret (b, EvSimulate r :: tr ++ tr')
      else Ret (false, EvSimulate r :: tr)
  end.

(** [_st.rounds = 1 << (num_pis - _st.split_var)]. *)
Definition compute_rounds (n_pis sv : Z) : outcome Z :=
  int_shl 1 (u32_sub n_pis sv).

(** [run]: the verdict, the statistics left in [_st] and the trace. *)
Definition run (ntk : Ntk) : outcome (bool * simulation_cec_stats * list event) :=
  let n_pis := num_pis ntk in
  let num_nodes := size ntk in
  sv <- calculate_split_var n_pis num_nodes ;;
  rd <- compute_rounds n_pis sv ;;
  '(b, tr) <- round_loop ntk sv (Z.to_nat rd) 0 ;;
  Ret (b, {| split_var := sv; rounds := rd |}, tr).

(** The result of a call of the entry point: the returned
    [std::optional<bool>], the record behind [pst] after the call ([None]
    for a null [pst]) and the trace. *)
Record cec_result : Type :=
  { verdict : option bool;
    pst_after : option simulation_cec_stats;
    trace : list event }.

(** [simulation_cec( ntk1, ntk2, pst )]; [pst] is [None] for [nullptr] and
    [Some s] for a pointer to a record holding [s]. *)
Definition simulation_cec (ntk1 ntk2 : Ntk) (pst : option simulation_cec_stats)
  : outcome cec_result :=
  let st := default_stats in
  let result := false in
  if num_pis ntk1 >? 40 then
    Ret {| verdict := None; pst_after := pst; trace := [] |}
  else
    let ntk_miter := miter ntk1 ntk2 in
    '(result, st, tr) <-
      match ntk_miter with
      | Some m => run m
      | None => Ret (result, st, [])
      end ;;
    Ret {| verdict := Some result;
           pst_after := match pst with Some _ => Some st | None => None end;
           trace := tr |}.
End Driver.

(* ================================================================== *)
(** ** The input vectors a round simulates *)

Fixpoint map_outcome {A B : Type} (f : A -> outcome B) (l : list A) : outcome (list B) :=
  match l with
  | [] => Ret []
  | a :: l' => b <- f a ;; bs <- map_outcome f l' ;; Ret (b :: bs)
  end.

(** The tables [compute_pi] gives to primary inputs [0 .. n-1]. *)
Definition pi_tables (sim : tt_simulator) (n : nat) : outcome (list dynamic_truth_table) :=
  map_outcome (compute_pi sim) (map Z.of_nat (seq 0 n)).

(** The input vector read off position [p] of the tables [pis]: bit [i] of
    the vector is the value of primary input [i] at that position. *)
Fixpoint vector_at (pis : list dynamic_truth_table) (p : Z) : Z :=
  match pis with
  | [] => 0
  | t :: rest => Z.b2z (get_bit t p) + 2 * vector_at rest p
  end.

(** The input vector simulated at position [p] of round [r]. *)
Definition input_vector (sv : Z) (n_pis : nat) (r p : Z) : outcome Z :=
  pis <- pi_tables {| _split_var := sv; _round := r |} n_pis ;;
  Ret (vector_at pis p).

(* ================================================================== *)
(** ** A network known by its functions *)

(** Modelled from the spec: a stand-in for a logic network, used to run the
    driver on concrete inputs.  It records the two counts and, for every
    primary output, its Boolean function of the input vector (bit [i] of the
    vector is primary input [i]).  Simulation evaluates each output on the
    vector every position stands for; the miter pairs the outputs by XOR and
    fails on networks of different shapes (section 6).  The node count of a
    miter, which the specification leaves open, is the sum of the two. *)
Record fn_network : Type :=
  { fn_pis : Z;
    fn_nodes : Z;
    fn_pos : list (Z -> bool) }.

Fixpoint bits_of_list (l : list bool) : Z :=
  match l with
  | [] => 0
  | b :: l' => Z.b2z b + 2 * bits_of_list l'
  end.

Definition tabulate (n : Z) (f : Z -> bool) : dynamic_truth_table :=
  {| num_vars := n;
     bits := bits_of_list (map (fun p => f (Z.of_nat p)) (seq 0 (Z.to_nat (2 ^ n)))) |}.

Definition fn_simulate (ntk : fn_network) (sim : tt_simulator)
  : outcome (list dynamic_truth_table) :=
  pis <- pi_tables sim (Z.to_nat (wrap (fn_pis ntk))) ;;
  Ret (map (fun f => tabulate (_split_var sim) (fun p => f (vector_at pis p)))
           (fn_pos ntk)).

Fixpoint xor_outputs (l1 l2 : list (Z -> bool)) : list (Z -> bool) :=
  match l1, l2 with
  | f :: l1', g :: l2' => (fun v => xorb (f v) (g v)) :: xor_outputs l1' l2'
  | _, _ => []
  end.

Definition fn_miter (a b : fn_network) : option fn_network :=
  if (wrap (fn_pis a) =? wrap (fn_pis b))
     && (Nat.eqb (length (fn_pos a)) (length (fn_pos b)))
  then Some {| fn_pis := fn_pis a;
               fn_nodes := fn_nodes a + fn_nodes b;
               fn_pos := xor_outputs (fn_pos a) (fn_pos b) |}
  else None.

#[export] Instance fn_Network : Network fn_network :=
  {| num_pis := fun ntk => wrap (fn_pis ntk);
     size := fun ntk => wrap (fn_nodes ntk);
     simulate := fn_simulate;
     miter := fn_miter;
     num_pis_u32 := fun ntk => Z.mod_pos_bound (fn_pis ntk) u32_modulus eq_refl;
     size_u32 := fun ntk => Z.mod_pos_bound (fn_nodes ntk) u32_modulus eq_refl |}.

(** Two-input AND and XOR, and constant networks of chosen shape. *)
Definition and2 : fn_network :=
  {| fn_pis := 2; fn_nodes := 4;
     fn_pos := [fun v => Z.testbit v 0 && Z.testbit v 1] |}.

Definition xor2 : fn_network :=
  {| fn_pis := 2; fn_nodes := 4;
     fn_pos := [fun v => xorb (Z.testbit v 0) (Z.testbit v 1)] |}.

Definition const_network (pis nodes : Z) (outputs : nat) : fn_network :=
  {| fn_pis := pis; fn_nodes := nodes;
     fn_pos := repeat (fun _ => false) outputs |}.

(** Eight inputs and [2^26] nodes: the calculator keeps 6 split variables
    and the driver runs 4 rounds.  The first output is constant 0, the second
    is 1 exactly when input 6 is 1 and input 7 is 0, which is round 2. *)
Definition late_difference : fn_network :=
  {| fn_pis := 8; fn_nodes := 2 ^ 26;
     fn_pos := [fun _ => false;
                fun v => Z.testbit v 6 && negb (Z.testbit v 7)] |}.

(* ================================================================== *)
(** ** Vocabulary of the statements *)

(** A table has width [n]: it is over [n] variables and holds nothing
    outside its [2 ^ n] positions. *)
Definition has_width (t : dynamic_truth_table) (n : Z) : Prop :=
  num_vars t = n /\ forall p, 2 ^ n <= p -> get_bit t p = false.

(** The memory bound for [m] split variables, in exact arithmetic. *)
Definition bound_holds (num_nodes m : Z) : Prop :=
  32 + 2 ^ (m - 3) * num_nodes <= 2 ^ 29.

(** The same bound as the loop evaluates it, in 32 bits. *)
Definition bound_u32 (num_nodes m : Z) : bool :=
  u32_add 32 (u32_mul (2 ^ (m - 3)) num_nodes) <=? 2 ^ 29.

(** The round an event belongs to. *)
Definition event_round (e : event) : Z :=
  match e with
  | EvSimulate r => r
  | EvIsConst0 r _ => r
  end.

(** The zero tests of outputs [k .. k+n-1] of round [r]. *)
Definition zero_tests (r : Z) (k n : nat) : list event :=
  map (EvIsConst0 r) (seq k n).

(** Round [r] simulates to outputs that are all zero. *)
Definition round_all_zero {Ntk : Type} `{Network Ntk} (ntk : Ntk) (sv r : Z) : Prop :=
  exists tt_po,
    simulate ntk {| _split_var := sv; _round := r |} = Ret tt_po /\
    forallb is_const0 tt_po = true.

(** The rounds a trace shows as simulated, in the order of the calls. *)
Fixpoint simulated_rounds (tr : list event) : list Z :=
  match tr with
  | [] => []
  | EvSimulate r :: tr' => r :: simulated_rounds tr'
  | EvIsConst0 _ _ :: tr' => simulated_rounds tr'
  end.

(** The rounds [r, r+1, ..., r+k-1]. *)
Definition rounds_from (r : Z) (k : nat) : list Z :=
  map (fun i => r + Z.of_nat i) (seq 0 k).

(** What a call leaves behind [pst] when it stores [w] (if anything). *)
Definition store (pst w : option simulation_cec_stats) : option simulation_cec_stats :=
  match pst, w with
  | Some _, Some x => Some x
  | _, _ => pst
  end.

(** The table [compute_pi] returns for input [i] when its shift is defined. *)
Definition pi_table (sim : tt_simulator) (i : Z) : dynamic_truth_table :=
  if i <? _split_var sim
  then create_nth_var (tt_create (_split_var sim)) i
  else compute_constant sim (negb (Z.testbit (_round sim) (i - _split_var sim))).

(** Position [p] of round [r] stands for this vector: the split variables
    spell [p], the round variables spell the complement of [r]. *)
Definition round_vector (sv rd r p : Z) : Z := p + 2 ^ sv * (rd - 1 - r).

(* ================================================================== *)
(** * Properties *)

(** ** Machine arithmetic *)

Lemma wrap_range (x : Z) : 0 <= wrap x < u32_modulus.
Proof. unfold wrap, u32_modulus. apply Z.mod_pos_bound. lia. Qed.

Lemma wrap_small (x : Z) : 0 <= x < u32_modulus -> wrap x = x.
Proof. intros Hx. unfold wrap. apply Z.mod_small. exact Hx. Qed.

Lemma u32_sub_small (a b : Z) : 0 <= b <= a -> a < u32_modulus -> u32_sub a b = a - b.
Proof. intros Hb Ha. unfold u32_sub. apply wrap_small. lia. Qed.

Lemma u32_add_small (a b : Z) : 0 <= a -> 0 <= b -> a + b < u32_modulus -> u32_add a b = a + b.
Proof. intros Ha Hb Hab. unfold u32_add. apply wrap_small. lia. Qed.

Lemma pow2_lt_modulus (k : Z) : 0 <= k < 32 -> 2 ^ k < u32_modulus.
Proof.
  intros Hk. unfold u32_modulus. apply Z.pow_lt_mono_r; lia.
Qed.

Lemma int_shl_1_defined (k : Z) : 0 <= k < 32 -> int_shl 1 k = Ret (2 ^ k).
Proof.
  intros Hk. unfold int_shl.
  pose proof (pow2_lt_modulus k Hk) as Hlt.
  replace (0 <=? k) with true by (symmetry; apply Z.leb_le; lia).
  replace (k <? 32) with true by (symmetry; apply Z.ltb_lt; lia).
  rewrite Z.mul_1_l.
  replace (2 ^ k <? u32_modulus) with true by (symmetry; apply Z.ltb_lt; lia).
  reflexivity.
Qed.

Lemma int_shl_wide (a k : Z) : 32 <= k -> int_shl a k = Undef.
Proof.
  intros Hk. unfold int_shl.
  replace (k <? 32) with false by (symmetry; apply Z.ltb_ge; lia).
  rewrite andb_false_r. reflexivity.
Qed.

Lemma int_shl_never_out_of_fuel (a k : Z) : int_shl a k <> OutOfFuel.
Proof. unfold int_shl. destruct (_ && _); discriminate. Qed.

Lemma u32_shr_defined (a k : Z) : 0 <= k < 32 -> u32_shr a k = Ret (Z.shiftr a k).
Proof.
  intros Hk. unfold u32_shr.
  replace (0 <=? k) with true by (symmetry; apply Z.leb_le; lia).
  replace (k <? 32) with true by (symmetry; apply Z.ltb_lt; lia).
  reflexivity.
Qed.


(** The lowest bit of [a >> k] is bit [k] of [a]. *)
Lemma shiftr_land_1 (a k : Z) : 0 <= k ->
  negb (Z.land (Z.shiftr a k) 1 =? 0) = Z.testbit a k.
Proof.
  intros Hk.
  assert (E : Z.testbit a k = Z.testbit (Z.shiftr a k) 0)
    by (rewrite Z.shiftr_spec by lia; f_equal; lia).
  rewrite E.
  change 1 with (Z.ones 1).
  rewrite Z.land_ones by lia.
  change (2 ^ 1) with 2.
  rewrite <- Z.bit0_mod.
  destruct (Z.testbit (Z.shiftr a k) 0); reflexivity.
Qed.

(* ------------------------------------------------------------------ *)
(** ** Truth tables, bit by bit *)

Lemma testbit_ones_width (w p : Z) : 0 <= w -> 0 <= p ->
  Z.testbit (Z.ones w) p = (p <? w).
Proof.
  intros Hw Hp. destruct (Z.ltb_spec p w) as [Hlt | Hge].
  - apply Z.ones_spec_low. lia.
  - apply Z.ones_spec_high. lia.
Qed.

(** A table is complemented position by position, inside its width. *)
Lemma get_bit_tt_not (t : dynamic_truth_table) (p : Z) : 0 <= p ->
  get_bit (tt_not t) p = (p <? 2 ^ num_vars t) && negb (get_bit t p).
Proof.
  intros Hp. unfold get_bit, tt_not; simpl.
  rewrite Z.ldiff_spec, testbit_ones_width by (try apply Z.pow_nonneg; lia).
  reflexivity.
Qed.

Lemma get_bit_tt_create (n p : Z) : get_bit (tt_create n) p = false.
Proof. unfold get_bit, tt_create; simpl. apply Z.bits_0. Qed.

(** Bit [i] of a position below [2 ^ (i+1)] says whether it lies in the
    upper half of that range. *)
Lemma testbit_upper_half (i q : Z) : 0 <= i -> 0 <= q < 2 ^ (i + 1) ->
  Z.testbit q i = (2 ^ i <=? q).
Proof.
  intros Hi Hq.
  rewrite Z.pow_add_r, Z.pow_1_r in Hq by lia.
  assert (Hpos : 0 < 2 ^ i) by (apply Z.pow_pos_nonneg; lia).
  rewrite Z.testbit_odd, Z.shiftr_div_pow2 by lia.
  destruct (Z.leb_spec (2 ^ i) q) as [Hle | Hlt].
  - replace (q / 2 ^ i) with 1; [reflexivity |].
    apply Z.div_unique with (r := q - 2 ^ i); lia.
  - rewrite Z.div_small by lia. reflexivity.
Qed.

(** One period of the pattern of variable [i]. *)
Lemma testbit_period (i q : Z) : 0 <= i -> 0 <= q ->
  Z.testbit (Z.shiftl (Z.ones (2 ^ i)) (2 ^ i)) q
  = (2 ^ i <=? q) && (q <? 2 ^ (i + 1)).
Proof.
  intros Hi Hq.
  assert (Hpos : 0 < 2 ^ i) by (apply Z.pow_pos_nonneg; lia).
  rewrite Z.pow_add_r, Z.pow_1_r by lia.
  rewrite Z.shiftl_spec by lia.
  destruct (Z.leb_spec (2 ^ i) q) as [Hle | Hlt].
  - rewrite testbit_ones_width by lia. cbn [andb].
    destruct (Z.ltb_spec (q - 2 ^ i) (2 ^ i)), (Z.ltb_spec q (2 ^ i * 2)); lia || reflexivity.
  - rewrite Z.testbit_neg_r by lia. reflexivity.
Qed.

(** A replicated block repeats with the block's length and ends after
    [2 ^ k] copies. *)
Lemma testbit_replicate_block (k : nat) (len blk : Z) :
  0 < len ->
  (forall q, len <= q -> Z.testbit blk q = false) ->
  forall p, 0 <= p ->
    Z.testbit (replicate_block k len blk) p
    = (p <? len * 2 ^ Z.of_nat k) && Z.testbit blk (p mod len).
Proof.
  intros Hlen Hhigh. induction k as [| k IH]; intros p Hp.
  - simpl. rewrite Z.mul_1_r.
    destruct (Z.ltb_spec p len) as [Hlt | Hge].
    + rewrite Z.mod_small by lia. reflexivity.
    + apply Hhigh. exact Hge.
  - cbn [replicate_block].
    set (L := len * 2 ^ Z.of_nat k).
    assert (HL : 0 < L) by (unfold L; apply Z.mul_pos_pos; [lia | apply Z.pow_pos_nonneg; lia]).
    assert (HL2 : len * 2 ^ Z.of_nat (S k) = 2 * L).
    { unfold L. rewrite Nat2Z.inj_succ, Z.pow_succ_r by lia. ring. }
    rewrite HL2, Z.lor_spec, Z.shiftl_spec by lia.
    rewrite IH by lia. fold L.
    destruct (Z.ltb_spec p L) as [Hlt | Hge].
    + rewrite (Z.testbit_neg_r _ (p - L)) by lia.
      rewrite orb_false_r.
      replace (p <? 2 * L) with true by (symmetry; apply Z.ltb_lt; lia).
      reflexivity.
    + rewrite IH by lia. fold L.
      replace ((p - L) mod len) with (p mod len).
      2:{ unfold L. replace (p - len * 2 ^ Z.of_nat k) with (p + (- 2 ^ Z.of_nat k) * len) by ring.
          rewrite Z.mod_add by lia. reflexivity. }
      cbn [andb orb].
      destruct (Z.ltb_spec (p - L) L), (Z.ltb_spec p (2 * L)); lia || reflexivity.
Qed.

(** The pattern of variable [i] over [n] variables has, at every position
    [p] of the table, bit [i] of [p]; it has nothing beyond the table. *)
Lemma testbit_nth_var_bits (n i p : Z) : 0 <= i < n -> 0 <= p ->
  Z.testbit (nth_var_bits n i) p = (p <? 2 ^ n) && Z.testbit p i.
Proof.
  intros Hi Hp. unfold nth_var_bits.
  assert (Hlen : 0 < 2 ^ (i + 1)) by (apply Z.pow_pos_nonneg; lia).
  rewrite Z.land_spec, testbit_ones_width by (try apply Z.pow_nonneg; lia).
  rewrite testbit_replicate_block; try lia.
  - rewrite Z2Nat.id by lia.
    replace (2 ^ (i + 1) * 2 ^ (n - i - 1)) with (2 ^ n)
      by (rewrite <- Z.pow_add_r by lia; f_equal; lia).
    pose proof (Z.mod_pos_bound p (2 ^ (i + 1)) Hlen) as Hq.
    rewrite testbit_period by lia.
    replace (p mod 2 ^ (i + 1) <? 2 ^ (i + 1)) with true by (symmetry; apply Z.ltb_lt; lia).
    rewrite andb_true_r.
    rewrite <- testbit_upper_half by lia.
    rewrite Z.mod_pow2_bits_low by lia.
    destruct (p <? 2 ^ n), (Z.testbit p i); reflexivity.
  - intros q Hq. rewrite testbit_period by lia.
    replace (q <? 2 ^ (i + 1)) with false by (symmetry; apply Z.ltb_ge; lia).
    apply andb_false_r.
Qed.

Lemma get_bit_create_nth_var (t : dynamic_truth_table) (i p : Z) :
  0 <= i < num_vars t -> 0 <= p ->
  get_bit (create_nth_var t i) p = (p <? 2 ^ num_vars t) && Z.testbit p i.
Proof. intros Hi Hp. unfold get_bit, create_nth_var; simpl. apply testbit_nth_var_bits; assumption. Qed.

(** The all-1 table has a one at every position of its width. *)
Lemma get_bit_const_true (sim : tt_simulator) (p : Z) : 0 <= p ->
  get_bit (compute_constant sim true) p = (p <? 2 ^ _split_var sim).
Proof.
  intros Hp. unfold compute_constant.
  rewrite get_bit_tt_not by lia. simpl num_vars.
  rewrite get_bit_tt_create. apply andb_true_r.
Qed.

Lemma get_bit_const_false (sim : tt_simulator) (p : Z) :
  get_bit (compute_constant sim false) p = false.
Proof. unfold compute_constant. apply get_bit_tt_create. Qed.

(* ------------------------------------------------------------------ *)
(** ** The round simulator *)

Lemma has_width_tt_create (n : Z) : has_width (tt_create n) n.
Proof. split; [reflexivity | intros p _; apply get_bit_tt_create]. Qed.

Lemma has_width_tt_not (t : dynamic_truth_table) : has_width (tt_not t) (num_vars t).
Proof.
  split; [reflexivity |]. intros p Hp.
  assert (H0 : 0 <= 2 ^ num_vars t) by (apply Z.pow_nonneg; lia).
  rewrite get_bit_tt_not by lia.
  replace (p <? 2 ^ num_vars t) with false by (symmetry; apply Z.ltb_ge; lia).
  reflexivity.
Qed.

Lemma has_width_create_nth_var (t : dynamic_truth_table) (i : Z) :
  has_width (create_nth_var t i) (num_vars t).
Proof.
  split; [reflexivity |]. intros p Hp.
  assert (H0 : 0 <= 2 ^ num_vars t) by (apply Z.pow_nonneg; lia).
  unfold get_bit, create_nth_var, nth_var_bits; simpl.
  rewrite Z.land_spec, Z.ones_spec_high by lia.
  apply andb_false_r.
Qed.

(** The branch of [compute_pi] for a split variable. *)
Lemma compute_pi_split (sim : tt_simulator) (index : Z) :
  index < _split_var sim ->
  compute_pi sim index = Ret (create_nth_var (tt_create (_split_var sim)) index).
Proof.
  intros Hlt. unfold compute_pi.
  replace (index <? _split_var sim) with true by (symmetry; apply Z.ltb_lt; lia).
  reflexivity.
Qed.

(** The branch of [compute_pi] for a round variable whose shift is defined:
    round bit 0 gives the all-1 table, round bit 1 the all-0 table. *)
Lemma compute_pi_round (sim : tt_simulator) (index : Z) :
  _split_var sim <= index -> index - _split_var sim < 32 ->
  compute_pi sim index
  = Ret (compute_constant sim (negb (Z.testbit (_round sim) (index - _split_var sim)))).
Proof.
  intros Hge Hsh. unfold compute_pi.
  replace (index <? _split_var sim) with false by (symmetry; apply Z.ltb_ge; lia).
  assert (Hsub : u32_sub index (_split_var sim) = index - _split_var sim).
  { unfold u32_sub. apply wrap_small. unfold u32_modulus. lia. }
  rewrite Hsub, u32_shr_defined by lia. cbn [bind].
  rewrite shiftr_land_1 by lia.
  unfold compute_constant.
  destruct (Z.testbit (_round sim) (index - _split_var sim)); reflexivity.
Qed.


Lemma compute_pi_never_out_of_fuel (sim : tt_simulator) (index : Z) :
  compute_pi sim index <> OutOfFuel.
Proof.
  unfold compute_pi, u32_shr.
  destruct (index <? _split_var sim); [discriminate |].
  destruct (_ && _); cbn [bind]; [| discriminate].
  destruct (Bool.eqb _ false); discriminate.
Qed.

(** Position by position, what [compute_pi] returns when it is defined. *)
Lemma get_bit_compute_pi (sim : tt_simulator) (index p : Z) (t : dynamic_truth_table) :
  0 <= index -> 0 <= p -> index - _split_var sim < 32 ->
  compute_pi sim index = Ret t ->
  get_bit t p
  = (p <? 2 ^ _split_var sim)
    && (if index <? _split_var sim then Z.testbit p index
        else negb (Z.testbit (_round sim) (index - _split_var sim))).
Proof.
  intros Hidx Hp Hsh Hret.
  destruct (Z.ltb_spec index (_split_var sim)) as [Hlt | Hge].
  - rewrite compute_pi_split in Hret by lia. injection Hret as <-.
    apply get_bit_create_nth_var; simpl; lia.
  - rewrite compute_pi_round in Hret by lia. injection Hret as <-.
    destruct (Z.testbit (_round sim) (index - _split_var sim)); cbn [negb].
    + rewrite get_bit_const_false. symmetry. apply andb_false_r.
    + rewrite get_bit_const_true by lia. symmetry. apply andb_true_r.
Qed.




(** C10: within one round every table the simulator returns, from
    [compute_constant], [compute_pi] or [compute_not] on a table of width
    [split_var], has width [split_var]. *)
Theorem round_tables_share_width (sim : tt_simulator) :
  (forall value, has_width (compute_constant sim value) (_split_var sim)) /\
  (forall index t, compute_pi sim index = Ret t -> has_width t (_split_var sim)) /\
  (forall t, has_width t (_split_var sim) ->
             has_width (compute_not sim t) (_split_var sim)).
Proof.
  assert (Hc : forall value, has_width (compute_constant sim value) (_split_var sim)).
  { intros value. unfold compute_constant. destruct value.
    - apply (has_width_tt_not (tt_create (_split_var sim))).
    - apply has_width_tt_create. }
  split; [exact Hc |]. split.
  - intros index t. unfold compute_pi.
    destruct (index <? _split_var sim).
    + intros [= <-]. apply (has_width_create_nth_var (tt_create (_split_var sim))).
    + destruct (u32_shr _ _); cbn [bind]; try discriminate.
      destruct (Bool.eqb _ false); intros [= <-].
      * apply (Hc true).
      * apply (Hc false).
  - intros t [Hn _]. unfold compute_not. rewrite <- Hn. apply has_width_tt_not.
Qed.

Lemma round_tables_share_width_witness :
  has_width (compute_constant {| _split_var := 3; _round := 2 |} true) 3 /\
  has_width (create_nth_var (tt_create 3) 1) 3 /\
  has_width (compute_not {| _split_var := 3; _round := 2 |} (tt_create 3)) 3.
Proof.
  destruct (round_tables_share_width {| _split_var := 3; _round := 2 |}) as (Hc & Hpi & Hnot).
  split; [exact (Hc true) |]. split.
  - exact (Hpi 1 _ eq_refl).
  - exact (Hnot _ (has_width_tt_create 3)).
Defined.

(* ------------------------------------------------------------------ *)
(** ** The split-variable calculator *)

Lemma bound_holds_limit (num_nodes m : Z) :
  0 < num_nodes -> bound_holds num_nodes m -> m <= 31.
Proof.
  unfold bound_holds. intros Hn Hb.
  destruct (Z.le_gt_cases m 31) as [Hle | Hgt]; [exact Hle | exfalso].
  assert (Hp : 2 ^ 29 <= 2 ^ (m - 3)) by (apply Z.pow_le_mono_r; lia).
  nia.
Qed.

Lemma bound_holds_antitone (num_nodes m m' : Z) :
  0 <= num_nodes -> m <= m' -> bound_holds num_nodes m' -> bound_holds num_nodes m.
Proof.
  unfold bound_holds. intros Hn Hm Hb.
  assert (Hp : 2 ^ (m - 3) <= 2 ^ (m' - 3)) by (apply Z.pow_le_mono_r; lia).
  nia.
Qed.

(** Where nothing overflows, the loop test is the exact bound. *)
Lemma bound_u32_exact (num_nodes m : Z) :
  0 <= num_nodes -> 32 + 2 ^ (m - 3) * num_nodes < u32_modulus ->
  bound_u32 num_nodes m = (32 + 2 ^ (m - 3) * num_nodes <=? 2 ^ 29).
Proof.
  intros Hn Hlt. unfold bound_u32.
  assert (Hp : 0 <= 2 ^ (m - 3)) by (apply Z.pow_nonneg; lia).
  assert (Hprod : 0 <= 2 ^ (m - 3) * num_nodes) by (apply Z.mul_nonneg_nonneg; lia).
  unfold u32_mul. rewrite (wrap_small (2 ^ (m - 3) * num_nodes)) by lia.
  rewrite u32_add_small by lia. reflexivity.
Qed.

(** One pass of the loop at a defined shift. *)
Lemma split_var_loop_step (fuel : nat) (n_pis num_nodes m : Z) :
  7 <= m <= 34 -> m <= n_pis ->
  split_var_loop (S fuel) n_pis num_nodes m
  = if bound_u32 num_nodes m
    then split_var_loop fuel n_pis num_nodes (m + 1)
    else Ret (m - 1).
Proof.
  intros Hm Hle. cbn [split_var_loop].
  replace (m <=? n_pis) with true by (symmetry; apply Z.leb_le; lia).
  rewrite (u32_sub_small m 3), int_shl_1_defined by (unfold u32_modulus; lia).
  cbn [bind]. fold (bound_u32 num_nodes m).
  rewrite (u32_sub_small m 1), u32_add_small by (unfold u32_modulus; lia).
  reflexivity.
Qed.

Lemma split_var_loop_exit (fuel : nat) (n_pis num_nodes m : Z) :
  1 <= m < u32_modulus -> n_pis < m ->
  split_var_loop (S fuel) n_pis num_nodes m = Ret (m - 1).
Proof.
  intros Hm Hlt. cbn [split_var_loop].
  replace (m <=? n_pis) with false by (symmetry; apply Z.leb_gt; lia).
  rewrite u32_sub_small by lia. reflexivity.
Qed.

(** At [m = 35] the loop shifts by 32. *)
Lemma split_var_loop_undef (fuel : nat) (n_pis num_nodes : Z) :
  35 <= n_pis ->
  split_var_loop (S fuel) n_pis num_nodes 35 = Undef.
Proof.
  intros Hle. cbn [split_var_loop].
  replace (35 <=? n_pis) with true by (symmetry; apply Z.leb_le; lia).
  reflexivity.
Qed.

(** The loop never exhausts its fuel. *)
Lemma split_var_loop_fuel (fuel : nat) (n_pis num_nodes m : Z) :
  7 <= m <= 35 -> 36 <= Z.of_nat fuel + m ->
  split_var_loop fuel n_pis num_nodes m <> OutOfFuel.
Proof.
  revert m. induction fuel as [| fuel IH]; intros m Hm Hfuel; [lia |].
  destruct (Z.le_gt_cases m n_pis) as [Hle | Hgt].
  - destruct (Z.eq_dec m 35) as [-> | Hne].
    + rewrite split_var_loop_undef by lia. discriminate.
    + rewrite split_var_loop_step by lia.
      destruct (bound_u32 num_nodes m); [apply IH; lia | discriminate].
  - rewrite split_var_loop_exit by (unfold u32_modulus; lia). discriminate.
Qed.

Lemma calculate_split_var_never_out_of_fuel (n_pis num_nodes : Z) :
  calculate_split_var n_pis num_nodes <> OutOfFuel.
Proof.
  unfold calculate_split_var. destruct (n_pis <=? 6); [discriminate |].
  apply split_var_loop_fuel; unfold split_var_fuel; lia.
Qed.

(** What the loop returns lies between where it started and [num_pis]. *)
Lemma split_var_loop_range (fuel : nat) (n_pis num_nodes m sv : Z) :
  7 <= m <= 35 -> m <= n_pis + 1 ->
  split_var_loop fuel n_pis num_nodes m = Ret sv ->
  m - 1 <= sv <= n_pis /\ sv <= 34.
Proof.
  revert m. induction fuel as [| fuel IH]; intros m Hm Hpis Hret; [discriminate |].
  destruct (Z.le_gt_cases m n_pis) as [Hle | Hgt].
  - destruct (Z.eq_dec m 35) as [-> | Hne].
    + rewrite split_var_loop_undef in Hret by lia. discriminate.
    + rewrite split_var_loop_step in Hret by lia.
      destruct (bound_u32 num_nodes m).
      * apply IH in Hret; lia.
      * injection Hret as <-. lia.
  - rewrite split_var_loop_exit in Hret by (unfold u32_modulus; lia).
    injection Hret as <-. lia.
Qed.

(** The split width never exceeds the input count. *)
Lemma calculate_split_var_range (n_pis num_nodes sv : Z) :
  0 <= n_pis ->
  calculate_split_var n_pis num_nodes = Ret sv ->
  0 <= sv <= n_pis /\ (6 < n_pis -> 6 <= sv <= 34).
Proof.
  intros Hpis. unfold calculate_split_var.
  destruct (Z.leb_spec n_pis 6) as [Hle | Hgt].
  - intros [= <-]. lia.
  - intros Hret. apply split_var_loop_range in Hret; lia.
Qed.

(** Where nothing overflows, the loop stops at the first [m] that breaks the
    exact bound or exceeds [num_pis]. *)
Lemma split_var_loop_exact (fuel : nat) (n_pis num_nodes m : Z) :
  0 < num_nodes -> 32 + 16 * num_nodes < u32_modulus ->
  7 <= m <= n_pis + 1 -> 36 <= Z.of_nat fuel + m ->
  (m = 7 \/ bound_holds num_nodes (m - 1)) ->
  exists sv,
    split_var_loop fuel n_pis num_nodes m = Ret sv /\
    m - 1 <= sv <= n_pis /\
    (sv = m - 1 \/ bound_holds num_nodes sv) /\
    (sv < n_pis -> ~ bound_holds num_nodes (sv + 1)).
Proof.
  intros Hn Hno. revert m.
  induction fuel as [| fuel IH]; intros m Hm Hfuel Hprev.
  - exfalso. destruct Hprev as [-> | Hb]; [lia |].
    apply bound_holds_limit in Hb; lia.
  - assert (Hm32 : m <= 32).
    { destruct Hprev as [-> | Hb]; [lia |]. apply bound_holds_limit in Hb; lia. }
    destruct (Z.le_gt_cases m n_pis) as [Hle | Hgt].
    + rewrite split_var_loop_step by lia.
      assert (Hfit : 32 + 2 ^ (m - 3) * num_nodes < u32_modulus).
      { destruct Hprev as [-> | Hb]; [exact Hno |].
        unfold bound_holds in Hb.
        replace (m - 3) with (Z.succ (m - 1 - 3)) by lia.
        rewrite Z.pow_succ_r by lia. unfold u32_modulus.
        change (2 ^ 29) with 536870912 in Hb. change (2 ^ 32) with 4294967296.
        nia. }
      rewrite bound_u32_exact by lia.
      destruct (Z.leb_spec (32 + 2 ^ (m - 3) * num_nodes) (2 ^ 29)) as [Hb | Hb].
      * destruct (IH (m + 1)) as (sv & Hret & Hrange & Hlast & Hnext); try lia.
        { right. replace (m + 1 - 1) with m by lia. exact Hb. }
        exists sv. split; [exact Hret |]. split; [lia |]. split; [| exact Hnext].
        destruct Hlast as [-> | Hlast]; [| right; exact Hlast].
        right. replace (m + 1 - 1) with m by lia. exact Hb.
      * exists (m - 1). split; [reflexivity |]. split; [lia |].
        split; [left; reflexivity |].
        intros _. replace (m - 1 + 1) with m by lia. unfold bound_holds. lia.
    + rewrite split_var_loop_exit by (unfold u32_modulus; lia).
      exists (m - 1). split; [reflexivity |]. split; [lia |].
      split; [left; reflexivity | lia].
Qed.

(** X2: without overflow (at most [2^28 - 3] nodes, and at least one), the
    calculator returns [num_pis] when [num_pis <= 6]; otherwise it returns the
    largest [m] in [7 .. num_pis] that satisfies the exact bound, which all
    smaller ones then satisfy too, and 6 when no such [m] exists. *)
Theorem calculate_split_var_exact (n_pis num_nodes : Z) :
  0 <= n_pis -> 0 < num_nodes -> 32 + 16 * num_nodes < u32_modulus ->
  exists sv,
    calculate_split_var n_pis num_nodes = Ret sv /\
    (n_pis <= 6 -> sv = n_pis) /\
    (6 < n_pis ->
       6 <= sv <= n_pis /\
       (forall m, 7 <= m <= sv -> bound_holds num_nodes m) /\
       (forall m, sv < m <= n_pis -> ~ bound_holds num_nodes m)).
Proof.
  intros Hpis Hn Hno. unfold calculate_split_var.
  destruct (Z.leb_spec n_pis 6) as [Hle | Hgt].
  - exists n_pis. split; [reflexivity |]. split; [reflexivity | lia].
  - destruct (split_var_loop_exact split_var_fuel n_pis num_nodes 7)
      as (sv & Hret & Hrange & Hlast & Hnext);
      try (unfold split_var_fuel; lia).
    exists sv. split; [exact Hret |]. split; [lia |].
    intros _. split; [lia |]. split.
    + intros m Hm. destruct Hlast as [-> | Hlast]; [lia |].
      apply (bound_holds_antitone num_nodes m sv); [lia | lia | exact Hlast].
    + intros m Hm Hb. apply Hnext; [lia |].
      apply (bound_holds_antitone num_nodes (sv + 1) m); [lia | lia | exact Hb].
Qed.

Lemma calculate_split_var_exact_witness :
  exists sv,
    calculate_split_var 30 1000 = Ret sv /\
    (30 <= 6 -> sv = 30) /\
    (6 < 30 ->
       6 <= sv <= 30 /\
       (forall m, 7 <= m <= sv -> bound_holds 1000 m) /\
       (forall m, sv < m <= 30 -> ~ bound_holds 1000 m)).
Proof. apply (calculate_split_var_exact 30 1000); unfold u32_modulus; lia. Defined.

(** C5 at an input where the 32-bit product wraps: with 11 inputs and
    [2^28 + 2^24] nodes the calculator returns 7.  In exact arithmetic the bound
    already fails at [m = 7], so the claim's result is 6; and as the loop
    evaluates it the bound holds again at [m = 11], so 7 is not the largest
    [m] that passes the loop's own test either. *)
Theorem calculate_split_var_wraps :
  calculate_split_var 11 (2 ^ 28 + 2 ^ 24) = Ret 7 /\
  ~ bound_holds (2 ^ 28 + 2 ^ 24) 7 /\
  bound_u32 (2 ^ 28 + 2 ^ 24) 7 = true /\
  bound_u32 (2 ^ 28 + 2 ^ 24) 8 = false /\
  bound_u32 (2 ^ 28 + 2 ^ 24) 11 = true.
Proof.
  split; [vm_compute; reflexivity |].
  split; [intros Hb; vm_compute in Hb; apply Hb; reflexivity |].
  repeat split; vm_compute; reflexivity.
Qed.

(* ------------------------------------------------------------------ *)
(** ** The driver *)

Lemma scan_outputs_all_zero (r : Z) (tt_po : list dynamic_truth_table) (k : nat) :
  forallb is_const0 tt_po = true ->
  scan_outputs r k tt_po = (true, zero_tests r k (length tt_po)).
Proof.
  revert k. induction tt_po as [| it rest IH]; intros k Hz; [reflexivity |].
  cbn [forallb] in Hz. apply andb_true_iff in Hz as [Hit Hrest].
  cbn [scan_outputs]. rewrite Hit. cbn [Bool.eqb].
  rewrite IH by exact Hrest. reflexivity.
Qed.

(** The scan stops at the first table that is not zero. *)
Lemma scan_outputs_first_nonzero (r : Z)
      (pre : list dynamic_truth_table) (t : dynamic_truth_table)
      (post : list dynamic_truth_table) (k : nat) :
  forallb is_const0 pre = true -> is_const0 t = false ->
  scan_outputs r k (pre ++ t :: post) = (false, zero_tests r k (S (length pre))).
Proof.
  revert k. induction pre as [| it rest IH]; intros k Hz Ht.
  - cbn [app scan_outputs]. rewrite Ht. reflexivity.
  - cbn [forallb] in Hz. apply andb_true_iff in Hz as [Hit Hrest].
    cbn [app scan_outputs]. rewrite Hit. cbn [Bool.eqb].
    rewrite IH by assumption. reflexivity.
Qed.

Lemma compute_rounds_defined (n_pis sv : Z) :
  0 <= sv <= n_pis -> n_pis - sv < 32 ->
  compute_rounds n_pis sv = Ret (2 ^ (n_pis - sv)).
Proof.
  intros Hsv Hsh. unfold compute_rounds.
  assert (Hsub : u32_sub n_pis sv = n_pis - sv).
  { unfold u32_sub. apply wrap_small. unfold u32_modulus. lia. }
  rewrite Hsub. apply int_shl_1_defined. lia.
Qed.

Lemma compute_rounds_wide (n_pis sv : Z) :
  0 <= sv -> n_pis < u32_modulus -> 32 <= n_pis - sv ->
  compute_rounds n_pis sv = Undef.
Proof.
  intros Hsv Hpis Hsh. unfold compute_rounds.
  rewrite u32_sub_small by lia. apply int_shl_wide. exact Hsh.
Qed.

(** When the round count is defined it is the exact power of two. *)
Lemma compute_rounds_ret (n_pis sv rd : Z) :
  0 <= sv <= n_pis -> n_pis < u32_modulus ->
  compute_rounds n_pis sv = Ret rd ->
  n_pis - sv < 32 /\ rd = 2 ^ (n_pis - sv).
Proof.
  intros Hsv Hpis Hret.
  destruct (Z.lt_ge_cases (n_pis - sv) 32) as [Hlt | Hge].
  - rewrite compute_rounds_defined in Hret by lia. injection Hret as <-. lia.
  - rewrite compute_rounds_wide in Hret by lia. discriminate.
Qed.

(** X4: up to six inputs every input is a split variable and one round is
    run. *)
Theorem small_networks_single_round (n_pis num_nodes : Z) :
  0 <= n_pis <= 6 ->
  calculate_split_var n_pis num_nodes = Ret n_pis /\
  compute_rounds n_pis n_pis = Ret 1.
Proof.
  intros Hn. split.
  - unfold calculate_split_var.
    replace (n_pis <=? 6) with true by (symmetry; apply Z.leb_le; lia).
    reflexivity.
  - rewrite compute_rounds_defined by lia.
    rewrite Z.sub_diag. reflexivity.
Qed.

Lemma small_networks_single_round_witness :
  calculate_split_var 2 8 = Ret 2 /\ compute_rounds 2 2 = Ret 1.
Proof. apply (small_networks_single_round 2 8). lia. Defined.

Section DriverProperties.
Context {Ntk : Type} `{Network Ntk}.

(** While the rounds simulate to zero the loop goes on to the next. *)
Lemma round_loop_skip (ntk : Ntk) (sv r : Z) (todo : nat) :
  0 <= r -> r + 1 < u32_modulus ->
  round_all_zero ntk sv r ->
  exists tr,
    (forall e, In e tr -> event_round e = r) /\
    round_loop ntk sv (S todo) r
    = '(b, tr') <- round_loop ntk sv todo (r + 1) ;; Ret (b, tr ++ tr').
Proof.
  intros Hr Hlt (tt_po & Hsim & Hz).
  exists (EvSimulate r :: zero_tests r 0 (length tt_po)). split.
  - intros e [<- | Hin]; [reflexivity |].
    unfold zero_tests in Hin. apply in_map_iff in Hin as (j & <- & _). reflexivity.
  - cbn [round_loop]. rewrite Hsim. cbn [bind].
    rewrite scan_outputs_all_zero by exact Hz.
    rewrite u32_add_small by lia.
    destruct (round_loop ntk sv todo (r + 1)) as [[b tr'] | |]; reflexivity.
Qed.

(** The loop from round [r] on, when the first output that is not zero is
    output [length pre] of round [r0]. *)
Lemma round_loop_first_nonzero (ntk : Ntk) (sv r0 : Z)
      (pre : list dynamic_truth_table) (t : dynamic_truth_table)
      (post : list dynamic_truth_table) :
  r0 + 1 < u32_modulus ->
  simulate ntk {| _split_var := sv; _round := r0 |} = Ret (pre ++ t :: post) ->
  forallb is_const0 pre = true -> is_const0 t = false ->
  forall (todo : nat) (r : Z),
    0 <= r <= r0 -> r0 - r < Z.of_nat todo ->
    (forall r', r <= r' < r0 -> round_all_zero ntk sv r') ->
    exists tr,
      (forall e, In e tr -> r <= event_round e < r0) /\
      round_loop ntk sv todo r
      = Ret (false, tr ++ EvSimulate r0 :: zero_tests r0 0 (S (length pre))).
Proof.
  intros Hr0 Hsim Hpre Ht.
  induction todo as [| todo IH]; intros r Hr Htodo Hzero; [lia |].
  destruct (Z.eq_dec r r0) as [-> | Hne].
  - exists []. split; [intros e [] |].
    cbn [round_loop]. rewrite Hsim. cbn [bind].
    rewrite scan_outputs_first_nonzero by assumption. reflexivity.
  - destruct (round_loop_skip ntk sv r todo) as (tr1 & Hin1 & Hstep);
      [lia | lia | apply Hzero; lia |].
    destruct (IH (r + 1)) as (tr2 & Hin2 & Hrest);
      [lia | lia | intros r' Hr'; apply Hzero; lia |].
    exists (tr1 ++ tr2). split.
    + intros e Hin. apply in_app_or in Hin as [Hin | Hin].
      * rewrite (Hin1 e Hin). lia.
      * specialize (Hin2 e Hin). lia.
    + rewrite Hstep, Hrest. cbn [bind]. rewrite <- app_assoc. reflexivity.
Qed.

(** The statistics of a run that is defined. *)
Lemma run_stats (ntk : Ntk) (b : bool) (st : simulation_cec_stats) (tr : list event) :
  run ntk = Ret (b, st, tr) ->
  calculate_split_var (num_pis ntk) (size ntk) = Ret (split_var st) /\
  compute_rounds (num_pis ntk) (split_var st) = Ret (rounds st).
Proof.
  unfold run.
  destruct (calculate_split_var (num_pis ntk) (size ntk)) as [sv | |] eqn:Hsv;
    cbn [bind]; try discriminate.
  destruct (compute_rounds (num_pis ntk) sv) as [rd | |] eqn:Hrd;
    cbn [bind]; try discriminate.
  destruct (round_loop ntk sv (Z.to_nat rd) 0) as [[b' tr'] | |];
    cbn [bind]; try discriminate.
  intros [= <- <- <-]. split; [reflexivity | exact Hrd].
Qed.

(** X1: whenever a run is defined, its statistics satisfy
    [rounds = 2 ^ (num_pis - split_var)] exactly, with
    [0 <= split_var <= num_pis] and at most 31 round variables. *)
Theorem run_stats_exact (ntk : Ntk) (b : bool) (st : simulation_cec_stats)
        (tr : list event) :
  run ntk = Ret (b, st, tr) ->
  0 <= split_var st <= num_pis ntk /\
  num_pis ntk - split_var st < 32 /\
  rounds st = 2 ^ (num_pis ntk - split_var st).
Proof.
  intros Hrun. apply run_stats in Hrun as [Hsv Hrd].
  pose proof (num_pis_u32 ntk) as Hpis.
  apply calculate_split_var_range in Hsv as [Hsv _]; [| lia].
  apply compute_rounds_ret in Hrd; [| lia | lia].
  lia.
Qed.

(** C3: when output [length pre] of round [r0] is the first primary-output
    table of the run that is not identically zero, [run] returns [false],
    and its trace ends with the zero test of that very output: it holds
    events of rounds before [r0], the simulation of round [r0] and the tests
    of outputs [0 .. length pre] of round [r0], and nothing after. *)
Theorem run_early_exit (ntk : Ntk) (sv rd r0 : Z)
        (pre : list dynamic_truth_table) (t : dynamic_truth_table)
        (post : list dynamic_truth_table) :
  calculate_split_var (num_pis ntk) (size ntk) = Ret sv ->
  compute_rounds (num_pis ntk) sv = Ret rd ->
  0 <= r0 < rd ->
  (forall r, 0 <= r < r0 -> round_all_zero ntk sv r) ->
  simulate ntk {| _split_var := sv; _round := r0 |} = Ret (pre ++ t :: post) ->
  forallb is_const0 pre = true ->
  is_const0 t = false ->
  exists tr,
    (forall e, In e tr -> 0 <= event_round e < r0) /\
    run ntk
    = Ret (false, {| split_var := sv; rounds := rd |},
           tr ++ EvSimulate r0 :: zero_tests r0 0 (S (length pre))).
Proof.
  intros Hsv Hrd Hr0 Hzero Hsim Hpre Ht.
  pose proof (num_pis_u32 ntk) as Hpis.
  pose proof Hsv as Hrange.
  apply calculate_split_var_range in Hrange as [Hrange _]; [| lia].
  pose proof Hrd as Hpow.
  apply compute_rounds_ret in Hpow as [Hsh ->]; [| lia | lia].
  assert (Hlt : 2 ^ (num_pis ntk - sv) < u32_modulus)
    by (apply pow2_lt_modulus; lia).
  destruct (round_loop_first_nonzero ntk sv r0 pre t post)
    with (todo := Z.to_nat (2 ^ (num_pis ntk - sv))) (r := 0)
    as (tr & Hin & Hloop); try assumption; try lia.
  exists tr. split; [exact Hin |].
  unfold run. rewrite Hsv. cbn [bind]. rewrite Hrd. cbn [bind].
  rewrite Hloop. reflexivity.
Qed.
End DriverProperties.

(* ------------------------------------------------------------------ *)
(** ** The entry point *)

Section EntryPointProperties.
Context {Ntk : Type} `{Network Ntk}.

Lemma simulation_cec_over_cap (ntk1 ntk2 : Ntk) (pst : option simulation_cec_stats) :
  40 < num_pis ntk1 ->
  simulation_cec ntk1 ntk2 pst
  = Ret {| verdict := None; pst_after := pst; trace := [] |}.
Proof.
  intros Hcap. unfold simulation_cec.
  replace (num_pis ntk1 >? 40) with true
    by (symmetry; rewrite Z.gtb_ltb; apply Z.ltb_lt; lia).
  reflexivity.
Qed.

Lemma simulation_cec_miter_fails (ntk1 ntk2 : Ntk) (pst : option simulation_cec_stats) :
  num_pis ntk1 <= 40 -> miter ntk1 ntk2 = None ->
  simulation_cec ntk1 ntk2 pst
  = Ret {| verdict := Some false;
           pst_after := store pst (Some default_stats);
           trace := [] |}.
Proof.
  intros Hcap Hmiter. unfold simulation_cec.
  replace (num_pis ntk1 >? 40) with false
    by (symmetry; rewrite Z.gtb_ltb; apply Z.ltb_ge; lia).
  rewrite Hmiter. cbn [bind]. destruct pst; reflexivity.
Qed.

Lemma simulation_cec_runs (ntk1 ntk2 m : Ntk) (pst : option simulation_cec_stats) :
  num_pis ntk1 <= 40 -> miter ntk1 ntk2 = Some m ->
  simulation_cec ntk1 ntk2 pst
  = '(b, st, tr) <- run m ;;
    Ret {| verdict := Some b; pst_after := store pst (Some st); trace := tr |}.
Proof.
  intros Hcap Hmiter. unfold simulation_cec.
  replace (num_pis ntk1 >? 40) with false
    by (symmetry; rewrite Z.gtb_ltb; apply Z.ltb_ge; lia).
  rewrite Hmiter.
  destruct (run m) as [[[b st] tr] | |]; cbn [bind]; [| reflexivity | reflexivity].
  destruct pst; reflexivity.
Qed.

(** The verdict, the record stored and the trace of a call depend on the
    two networks only. *)
Lemma simulation_cec_effect (ntk1 ntk2 : Ntk) :
  exists o : outcome (option bool * option simulation_cec_stats * list event),
    forall pst,
      simulation_cec ntk1 ntk2 pst
      = '(v, w, tr) <- o ;;
        Ret {| verdict := v; pst_after := store pst w; trace := tr |}.
Proof.
  destruct (Z.le_gt_cases (num_pis ntk1) 40) as [Hcap | Hcap].
  - destruct (miter ntk1 ntk2) as [m |] eqn:Hmiter.
    + exists ('(b, st, tr) <- run m ;; Ret (Some b, Some st, tr)).
      intros pst. rewrite (simulation_cec_runs ntk1 ntk2 m) by assumption.
      destruct (run m) as [[[b st] tr] | |]; reflexivity.
    + exists (Ret (Some false, Some default_stats, [])).
      intros pst. apply simulation_cec_miter_fails; assumption.
  - exists (Ret (None, None, [])).
    intros pst. rewrite simulation_cec_over_cap by lia.
    destruct pst; reflexivity.
Qed.

(** C1 (amended): when [ntk1] has at most 40 primary inputs and the miter
    construction fails, [simulation_cec] returns the boolean [false], not
    the indeterminate value; it runs no simulation and stores the default
    statistics through a non-null [pst]. *)
Theorem miter_failure_returns_false (ntk1 ntk2 : Ntk)
        (pst : option simulation_cec_stats) :
  num_pis ntk1 <= 40 -> miter ntk1 ntk2 = None ->
  exists res,
    simulation_cec ntk1 ntk2 pst = Ret res /\
    verdict res = Some false /\
    trace res = [].
Proof.
  intros Hcap Hmiter. eexists. split.
  - apply simulation_cec_miter_fails; assumption.
  - split; reflexivity.
Qed.

(** C7: when [ntk1] has more than 40 primary inputs, [simulation_cec]
    returns the indeterminate value whatever the two networks are, with an
    empty trace: no round is simulated. *)
Theorem over_cap_indeterminate (ntk1 ntk2 : Ntk) (pst : option simulation_cec_stats) :
  40 < num_pis ntk1 ->
  exists res,
    simulation_cec ntk1 ntk2 pst = Ret res /\
    verdict res = None /\
    trace res = [].
Proof.
  intros Hcap. eexists. split.
  - apply simulation_cec_over_cap. exact Hcap.
  - split; reflexivity.
Qed.

(** C8: the verdict, the statistics stored through [pst] and the trace
    of a call are functions of the two networks alone, whatever [pst]
    pointed to before; and a second call on the same networks, made on the
    memory the first one left, gives the result of the first again. *)
Theorem simulation_cec_deterministic (ntk1 ntk2 : Ntk) :
  (exists o : outcome (option bool * option simulation_cec_stats * list event),
     forall pst,
       simulation_cec ntk1 ntk2 pst
       = '(v, w, tr) <- o ;;
         Ret {| verdict := v; pst_after := store pst w; trace := tr |}) /\
  (forall pst,
     (res <- simulation_cec ntk1 ntk2 pst ;;
      simulation_cec ntk1 ntk2 (pst_after res))
     = simulation_cec ntk1 ntk2 pst).
Proof.
  split; [apply simulation_cec_effect |].
  intros pst. destruct (simulation_cec_effect ntk1 ntk2) as (o & Ho).
  rewrite (Ho pst).
  destruct o as [[[v w] tr] | |]; cbn [bind]; [| reflexivity | reflexivity].
  cbn [pst_after]. rewrite Ho. cbn [bind].
  destruct pst as [s |], w as [x |]; reflexivity.
Qed.

(** C9: with a stats location supplied, a call on an [ntk1] of more than
    40 primary inputs leaves the record as it was, while a call whose miter
    fails stores the default record, [split_var = 0] and [rounds = 0]. *)
Theorem stats_frame (ntk1 ntk2 : Ntk) (s : simulation_cec_stats) :
  (40 < num_pis ntk1 ->
   exists res,
     simulation_cec ntk1 ntk2 (Some s) = Ret res /\ pst_after res = Some s) /\
  (num_pis ntk1 <= 40 -> miter ntk1 ntk2 = None ->
   exists res,
     simulation_cec ntk1 ntk2 (Some s) = Ret res /\
     pst_after res = Some {| split_var := 0; rounds := 0 |}).
Proof.
  split.
  - intros Hcap. eexists. split; [apply simulation_cec_over_cap; exact Hcap | reflexivity].
  - intros Hcap Hmiter. eexists.
    split; [apply simulation_cec_miter_fails; assumption | reflexivity].
Qed.
(** X5: a call that returns gives the indeterminate value exactly when [ntk1]
    has more than 40 primary inputs. *)
Theorem indeterminate_iff_over_cap (ntk1 ntk2 : Ntk)
        (pst : option simulation_cec_stats) (res : cec_result) :
  simulation_cec ntk1 ntk2 pst = Ret res ->
  (verdict res = None <-> 40 < num_pis ntk1).
Proof.
  intros Hret.
  destruct (Z.le_gt_cases (num_pis ntk1) 40) as [Hcap | Hcap].
  - split; [| lia]. intros Hv. exfalso.
    destruct (miter ntk1 ntk2) as [m |] eqn:Hmiter.
    + rewrite (simulation_cec_runs ntk1 ntk2 m) in Hret by assumption.
      destruct (run m) as [[[b st] tr] | |]; cbn [bind] in Hret; try discriminate.
      injection Hret as <-. discriminate Hv.
    + rewrite simulation_cec_miter_fails in Hret by assumption.
      injection Hret as <-. discriminate Hv.
  - rewrite simulation_cec_over_cap in Hret by lia.
    injection Hret as <-. split; [intros _; lia | reflexivity].
Qed.
End EntryPointProperties.

(* ------------------------------------------------------------------ *)
(** ** The entry point on concrete networks *)

(** The four scenarios of section 8 of the specification, as the code
    settles them. *)
Example scenario_equal_ands :
  simulation_cec and2 and2 (Some default_stats)
  = Ret {| verdict := Some true;
           pst_after := Some {| split_var := 2; rounds := 1 |};
           trace := [EvSimulate 0; EvIsConst0 0 0] |}.
Proof. vm_compute. reflexivity. Qed.

Example scenario_and_against_xor :
  simulation_cec and2 xor2 None
  = Ret {| verdict := Some false; pst_after := None;
           trace := [EvSimulate 0; EvIsConst0 0 0] |}.
Proof. vm_compute. reflexivity. Qed.

Example scenario_41_inputs :
  simulation_cec (const_network 41 50 1) (const_network 41 50 1) None
  = Ret {| verdict := None; pst_after := None; trace := [] |}.
Proof. vm_compute. reflexivity. Qed.

Example scenario_mismatched_outputs :
  simulation_cec (const_network 2 50 1) (const_network 2 50 2) (Some default_stats)
  = Ret {| verdict := Some false; pst_after := Some default_stats; trace := [] |}.
Proof. vm_compute. reflexivity. Qed.

(** C1, as stated, fails: two networks of two inputs with one and with two
    outputs have no miter, [ntk1] is within the cap, and the call returns a
    boolean ([false]) instead of the indeterminate value. *)
Lemma miter_failure_not_indeterminate :
  num_pis (const_network 2 50 1) <= 40 /\
  miter (const_network 2 50 1) (const_network 2 50 2) = None /\
  ~ (exists res,
       simulation_cec (const_network 2 50 1) (const_network 2 50 2) None = Ret res /\
       verdict res = None).
Proof.
  split; [vm_compute; discriminate |].
  split; [reflexivity |].
  intros (res & Hret & Hv). vm_compute in Hret.
  injection Hret as <-. discriminate Hv.
Qed.

Lemma miter_failure_returns_false_witness :
  exists res,
    simulation_cec (const_network 2 50 1) (const_network 2 50 2) None = Ret res /\
    verdict res = Some false /\
    trace res = [].
Proof.
  apply miter_failure_returns_false; [vm_compute; discriminate | reflexivity].
Defined.

Lemma over_cap_indeterminate_witness :
  exists res,
    simulation_cec (const_network 41 50 1) and2 None = Ret res /\
    verdict res = None /\
    trace res = [].
Proof. apply over_cap_indeterminate. vm_compute. reflexivity. Defined.

Lemma stats_frame_witness :
  (exists res,
     simulation_cec (const_network 41 50 1) and2 (Some {| split_var := 5; rounds := 9 |})
     = Ret res /\
     pst_after res = Some {| split_var := 5; rounds := 9 |}) /\
  (exists res,
     simulation_cec (const_network 2 50 1) (const_network 2 50 2)
                    (Some {| split_var := 5; rounds := 9 |})
     = Ret res /\
     pst_after res = Some {| split_var := 0; rounds := 0 |}).
Proof.
  split.
  - apply (stats_frame (const_network 41 50 1) and2). vm_compute. reflexivity.
  - apply (stats_frame (const_network 2 50 1) (const_network 2 50 2));
      [vm_compute; discriminate | reflexivity].
Defined.

Lemma indeterminate_iff_over_cap_witness :
  Some false = None <-> 40 < num_pis and2.
Proof.
  apply (indeterminate_iff_over_cap and2 xor2 None
           {| verdict := Some false; pst_after := None;
              trace := [EvSimulate 0; EvIsConst0 0 0] |}).
  vm_compute. reflexivity.
Defined.

Lemma simulation_cec_deterministic_witness :
  (res <- simulation_cec and2 xor2 (Some default_stats) ;;
   simulation_cec and2 xor2 (pst_after res))
  = simulation_cec and2 xor2 (Some default_stats).
Proof. apply (simulation_cec_deterministic and2 xor2). Defined.

Lemma run_early_exit_witness :
  exists tr,
    (forall e, In e tr -> 0 <= event_round e < 2) /\
    run late_difference
    = Ret (false, {| split_var := 6; rounds := 4 |},
           tr ++ EvSimulate 2 :: zero_tests 2 0 (S (length [tt_create 6]))).
Proof.
  apply (run_early_exit late_difference 6 4 2
           [tt_create 6] (compute_constant {| _split_var := 6; _round := 2 |} true) []).
  - vm_compute. reflexivity.
  - vm_compute. reflexivity.
  - lia.
  - intros r Hr. exists [tt_create 6; tt_create 6].
    assert (Hcases : r = 0 \/ r = 1) by lia.
    destruct Hcases as [-> | ->]; split; vm_compute; reflexivity.
  - vm_compute. reflexivity.
  - reflexivity.
  - reflexivity.
Defined.

Example late_difference_trace :
  run late_difference
  = Ret (false, {| split_var := 6; rounds := 4 |},
         [EvSimulate 0; EvIsConst0 0 0; EvIsConst0 0 1;
          EvSimulate 1; EvIsConst0 1 0; EvIsConst0 1 1;
          EvSimulate 2; EvIsConst0 2 0; EvIsConst0 2 1]).
Proof. vm_compute. reflexivity. Qed.

Lemma run_stats_exact_witness :
  0 <= 6 <= num_pis late_difference /\
  num_pis late_difference - 6 < 32 /\
  4 = 2 ^ (num_pis late_difference - 6).
Proof.
  apply (run_stats_exact late_difference false {| split_var := 6; rounds := 4 |}
           [EvSimulate 0; EvIsConst0 0 0; EvIsConst0 0 1;
            EvSimulate 1; EvIsConst0 1 0; EvIsConst0 1 1;
            EvSimulate 2; EvIsConst0 2 0; EvIsConst0 2 1]).
  vm_compute. reflexivity.
Defined.

(** C2 on a miter of 40 inputs and [2^23] nodes: the calculator keeps 8 split
    variables, so the round count is [1 << 32], a shift by the full width of
    [int].  The run has no defined behaviour, and no value of the 32-bit field
    [rounds] equals [2 ^ (40 - 8)]. *)
Theorem rounds_shift_overflows :
  miter (const_network 40 (2 ^ 22) 1) (const_network 40 (2 ^ 22) 1)
  = Some (const_network 40 (2 ^ 23) 1) /\
  num_pis (const_network 40 (2 ^ 23) 1) = 40 /\
  size (const_network 40 (2 ^ 23) 1) = 2 ^ 23 /\
  calculate_split_var 40 (2 ^ 23) = Ret 8 /\
  compute_rounds 40 8 = Undef /\
  run (const_network 40 (2 ^ 23) 1) = Undef /\
  simulation_cec (const_network 40 (2 ^ 22) 1) (const_network 40 (2 ^ 22) 1)
                 (Some default_stats) = Undef /\
  (forall v, wrap v <> 2 ^ (40 - 8)).
Proof.
  repeat (split; [vm_compute; reflexivity |]).
  intros v Hv. pose proof (wrap_range v) as Hr.
  unfold u32_modulus in Hr. rewrite Hv in Hr. simpl in Hr. lia.
Qed.

(* ------------------------------------------------------------------ *)
(** ** The input vectors of all rounds *)

Lemma compute_pi_pi_table (sim : tt_simulator) (i : Z) :
  i - _split_var sim < 32 ->
  compute_pi sim i = Ret (pi_table sim i).
Proof.
  intros Hsh. unfold pi_table.
  destruct (Z.ltb_spec i (_split_var sim)) as [Hlt | Hge].
  - apply compute_pi_split. exact Hlt.
  - apply compute_pi_round; assumption.
Qed.

Lemma map_outcome_ret {A B : Type} (f : A -> outcome B) (g : A -> B) (l : list A) :
  (forall a, In a l -> f a = Ret (g a)) ->
  map_outcome f l = Ret (map g l).
Proof.
  induction l as [| a l IH]; intros Hf; [reflexivity |].
  cbn [map_outcome map]. rewrite (Hf a) by (left; reflexivity). cbn [bind].
  rewrite IH by (intros a' Hin; apply Hf; right; exact Hin).
  reflexivity.
Qed.

Lemma pi_tables_ret (sim : tt_simulator) (n : nat) :
  Z.of_nat n - _split_var sim <= 32 ->
  pi_tables sim n = Ret (map (pi_table sim) (map Z.of_nat (seq 0 n))).
Proof.
  intros Hsh. unfold pi_tables. apply map_outcome_ret.
  intros i Hin. apply in_map_iff in Hin as (j & <- & Hj).
  apply in_seq in Hj. apply compute_pi_pi_table. lia.
Qed.

Lemma get_bit_pi_table (sim : tt_simulator) (i p : Z) :
  0 <= i -> 0 <= p < 2 ^ _split_var sim ->
  get_bit (pi_table sim i) p
  = if i <? _split_var sim then Z.testbit p i
    else negb (Z.testbit (_round sim) (i - _split_var sim)).
Proof.
  intros Hi Hp. unfold pi_table.
  destruct (Z.ltb_spec i (_split_var sim)) as [Hlt | Hge].
  - rewrite get_bit_create_nth_var by (simpl; lia). simpl.
    replace (p <? 2 ^ _split_var sim) with true by (symmetry; apply Z.ltb_lt; lia).
    reflexivity.
  - destruct (Z.testbit (_round sim) (i - _split_var sim)); cbn [negb].
    + apply get_bit_const_false.
    + rewrite get_bit_const_true by lia. apply Z.ltb_lt. lia.
Qed.

(** Bit [i] of the vector read off a list of tables is the value of table
    [i] at that position. *)
Lemma testbit_vector_at_seq (h : nat -> dynamic_truth_table) (p : Z) (n : nat) :
  forall (s : nat) (i : Z), 0 <= i ->
    Z.testbit (vector_at (map h (seq s n)) p) i
    = if i <? Z.of_nat n then get_bit (h (s + Z.to_nat i)%nat) p else false.
Proof.
  induction n as [| n IH]; intros s i Hi.
  - simpl. rewrite Z.bits_0. destruct (Z.ltb_spec i 0); [lia | reflexivity].
  - cbn [seq map vector_at].
    rewrite Z.add_comm.
    destruct (Z.eq_dec i 0) as [-> | Hne].
    + rewrite Z.testbit_0_r. simpl Z.to_nat. rewrite Nat.add_0_r. reflexivity.
    + replace i with (Z.succ (i - 1)) at 1 by lia.
      rewrite Z.testbit_succ_r, IH by lia.
      replace (S s + Z.to_nat (i - 1))%nat with (s + Z.to_nat i)%nat by lia.
      destruct (Z.ltb_spec (i - 1) (Z.of_nat n)), (Z.ltb_spec i (Z.of_nat (S n)));
        lia || reflexivity.
Qed.

Lemma testbit_below_pow2 (x n i : Z) : 0 <= x < 2 ^ n -> n <= i -> Z.testbit x i = false.
Proof.
  intros Hx Hi.
  destruct (Z.lt_ge_cases n 0) as [Hneg | Hn].
  - rewrite Z.pow_neg_r in Hx by lia. lia.
  - rewrite <- (Z.mod_small x (2 ^ n)) by lia.
    apply Z.mod_pow2_bits_high. lia.
Qed.

(** The bits of a number put together from a low part and a high part. *)
Lemma testbit_low_high (sv p c i : Z) : 0 <= sv -> 0 <= p < 2 ^ sv -> 0 <= i ->
  Z.testbit (p + 2 ^ sv * c) i
  = if i <? sv then Z.testbit p i else Z.testbit c (i - sv).
Proof.
  intros Hsv Hp Hi.
  assert (Hpos : 0 < 2 ^ sv) by (apply Z.pow_pos_nonneg; lia).
  destruct (Z.ltb_spec i sv) as [Hlt | Hge].
  - rewrite <- (Z.mod_pow2_bits_low (p + 2 ^ sv * c) sv i) by lia.
    rewrite (Z.mul_comm (2 ^ sv) c), Z.mod_add, Z.mod_small by lia.
    reflexivity.
  - replace i with (i - sv + sv) at 1 by lia.
    rewrite <- Z.div_pow2_bits by lia.
    rewrite (Z.mul_comm (2 ^ sv) c), Z.div_add, Z.div_small by lia.
    reflexivity.
Qed.

(** The bits of the complement of [r] within [k] bits. *)
Lemma testbit_complement (k r j : Z) : 0 <= k -> 0 <= r < 2 ^ k -> 0 <= j ->
  Z.testbit (2 ^ k - 1 - r) j = (j <? k) && negb (Z.testbit r j).
Proof.
  intros Hk Hr Hj.
  assert (Hnc : Z.ldiff r (Z.ones k) = 0).
  { apply Z.bits_inj'. intros i Hi.
    rewrite Z.ldiff_spec, Z.bits_0, testbit_ones_width by lia.
    destruct (Z.ltb_spec i k) as [Hlt | Hge].
    - apply andb_false_r.
    - rewrite (testbit_below_pow2 r k i) by lia. reflexivity. }
  apply Z.sub_nocarry_ldiff in Hnc.
  rewrite Z.ones_equiv in Hnc.
  replace (2 ^ k - 1 - r) with (Z.pred (2 ^ k) - r) by lia.
  rewrite Hnc, Z.ldiff_spec, <- Z.ones_equiv, testbit_ones_width by lia.
  reflexivity.
Qed.

(** With at most 32 round variables, each zero or one of them given by a
    round below [2 ^ k], position [p] of round [r] simulates
    [round_vector sv (2 ^ k) r p]. *)
Lemma input_vector_round_vector (sv r p : Z) (n : nat) :
  0 <= sv <= Z.of_nat n -> Z.of_nat n - sv <= 32 ->
  0 <= r < 2 ^ (Z.of_nat n - sv) -> 0 <= p < 2 ^ sv ->
  input_vector sv n r p = Ret (round_vector sv (2 ^ (Z.of_nat n - sv)) r p).
Proof.
  intros Hsv Hsh Hr Hp. unfold input_vector.
  rewrite pi_tables_ret by (simpl; lia). cbn [bind]. f_equal.
  rewrite map_map.
  apply Z.bits_inj'. intros i Hi.
  rewrite testbit_vector_at_seq by lia.
  unfold round_vector. rewrite testbit_low_high by lia.
  cbn [Nat.add]. rewrite Z2Nat.id by lia.
  destruct (Z.ltb_spec i (Z.of_nat n)) as [Hlt | Hge].
  - rewrite get_bit_pi_table by (simpl; lia). simpl.
    destruct (Z.ltb_spec i sv) as [Hlo | Hhi]; [reflexivity |].
    rewrite testbit_complement by lia.
    replace (i - sv <? Z.of_nat n - sv) with true by (symmetry; apply Z.ltb_lt; lia).
    reflexivity.
  - replace (i <? sv) with false by (symmetry; apply Z.ltb_ge; lia).
    rewrite testbit_complement by lia.
    replace (i - sv <? Z.of_nat n - sv) with false by (symmetry; apply Z.ltb_ge; lia).
    reflexivity.
Qed.

(** [round_vector] maps rounds and positions one-to-one onto the vectors. *)
Lemma round_vector_range (sv k r p : Z) :
  0 <= sv -> 0 <= k -> 0 <= r < 2 ^ k -> 0 <= p < 2 ^ sv ->
  0 <= round_vector sv (2 ^ k) r p < 2 ^ (sv + k).
Proof.
  intros Hsv Hk Hr Hp. unfold round_vector.
  rewrite Z.pow_add_r by lia. nia.
Qed.

Lemma round_vector_injective (sv rd r p r' p' : Z) :
  0 <= sv -> 0 <= p < 2 ^ sv -> 0 <= p' < 2 ^ sv ->
  round_vector sv rd r p = round_vector sv rd r' p' ->
  r = r' /\ p = p'.
Proof.
  intros Hsv Hp Hp'. unfold round_vector. intros Heq.
  assert (Hpos : 0 < 2 ^ sv) by (apply Z.pow_pos_nonneg; lia).
  set (P := 2 ^ sv) in *.
  assert (Hr : r = r').
  { destruct (Z.lt_trichotomy r r') as [Hlt | [Heq' | Hgt]]; [| exact Heq' |].
    - assert (P * 1 <= P * (r' - r)) by (apply Z.mul_le_mono_nonneg_l; lia). lia.
    - assert (P * 1 <= P * (r - r')) by (apply Z.mul_le_mono_nonneg_l; lia). lia. }
  subst r'. split; [reflexivity | lia].
Qed.

Lemma round_vector_surjective (sv k v : Z) :
  0 <= sv -> 0 <= k -> 0 <= v < 2 ^ (sv + k) ->
  exists r p,
    0 <= r < 2 ^ k /\ 0 <= p < 2 ^ sv /\ round_vector sv (2 ^ k) r p = v.
Proof.
  intros Hsv Hk Hv.
  assert (Hpos : 0 < 2 ^ sv) by (apply Z.pow_pos_nonneg; lia).
  rewrite Z.pow_add_r in Hv by lia.
  pose proof (Z.div_mod v (2 ^ sv) ltac:(lia)) as Hdm.
  pose proof (Z.mod_pos_bound v (2 ^ sv) Hpos) as Hmod.
  assert (Hq : 0 <= v / 2 ^ sv < 2 ^ k).
  { split; [apply Z.div_pos; lia |]. apply Z.div_lt_upper_bound; lia. }
  exists (2 ^ k - 1 - v / 2 ^ sv), (v mod 2 ^ sv).
  split; [lia |]. split; [lia |].
  unfold round_vector. lia.
Qed.

(** X14: whenever the calculator's split width and the round count
    are defined (at most 31 round variables), the positions of the rounds
    [0 .. rounds-1] stand for the input vectors one-to-one:
    every position of every round simulates a vector below [2 ^ num_pis]
    (a vector is the number whose bit [i] is primary input [i]), and every
    such vector is simulated at exactly one position of exactly one round. *)
Theorem rounds_enumerate_inputs (n_pis num_nodes sv rd : Z) :
  0 <= n_pis < u32_modulus ->
  calculate_split_var n_pis num_nodes = Ret sv ->
  compute_rounds n_pis sv = Ret rd ->
  (forall r p, 0 <= r < rd -> 0 <= p < 2 ^ sv ->
     exists v, input_vector sv (Z.to_nat n_pis) r p = Ret v /\ 0 <= v < 2 ^ n_pis) /\
  (forall v, 0 <= v < 2 ^ n_pis ->
     exists r p,
       0 <= r < rd /\ 0 <= p < 2 ^ sv /\
       input_vector sv (Z.to_nat n_pis) r p = Ret v /\
       forall r' p', 0 <= r' < rd -> 0 <= p' < 2 ^ sv ->
         input_vector sv (Z.to_nat n_pis) r' p' = Ret v -> r' = r /\ p' = p).
Proof.
  intros Hpis Hsv Hrd.
  apply calculate_split_var_range in Hsv as [Hsv _]; [| lia].
  apply compute_rounds_ret in Hrd as [Hsh ->]; [| lia | lia].
  assert (Hvec : forall r p, 0 <= r < 2 ^ (n_pis - sv) -> 0 <= p < 2 ^ sv ->
            input_vector sv (Z.to_nat n_pis) r p
            = Ret (round_vector sv (2 ^ (n_pis - sv)) r p)).
  { intros r p Hr Hp.
    rewrite input_vector_round_vector; rewrite ?Z2Nat.id; try lia.
    reflexivity. }
  split.
  - intros r p Hr Hp. eexists. split; [apply Hvec; assumption |].
    pose proof (round_vector_range sv (n_pis - sv) r p) as Hrange.
    replace (sv + (n_pis - sv)) with n_pis in Hrange by lia.
    apply Hrange; lia.
  - intros v Hv.
    destruct (round_vector_surjective sv (n_pis - sv) v) as (r & p & Hr & Hp & Heq);
      [lia | lia | replace (sv + (n_pis - sv)) with n_pis by lia; exact Hv |].
    exists r, p. split; [exact Hr |]. split; [exact Hp |].
    split; [rewrite Hvec by assumption; f_equal; exact Heq |].
    intros r' p' Hr' Hp' Hret.
    rewrite Hvec in Hret by assumption. injection Hret as Hret.
    rewrite <- Heq in Hret.
    apply round_vector_injective in Hret; [| lia | lia | lia].
    exact Hret.
Qed.

Lemma rounds_enumerate_inputs_witness :
  (forall r p, 0 <= r < 4 -> 0 <= p < 2 ^ 6 ->
     exists v, input_vector 6 (Z.to_nat 8) r p = Ret v /\ 0 <= v < 2 ^ 8) /\
  (forall v, 0 <= v < 2 ^ 8 ->
     exists r p,
       0 <= r < 4 /\ 0 <= p < 2 ^ 6 /\
       input_vector 6 (Z.to_nat 8) r p = Ret v /\
       forall r' p', 0 <= r' < 4 -> 0 <= p' < 2 ^ 6 ->
         input_vector 6 (Z.to_nat 8) r' p' = Ret v -> r' = r /\ p' = p).
Proof.
  apply (rounds_enumerate_inputs 8 (2 ^ 26) 6 4).
  - unfold u32_modulus. lia.
  - vm_compute. reflexivity.
  - vm_compute. reflexivity.
Defined.

(** C6 on an input the entry point admits: for 40 inputs and [2^23] nodes
    the calculator keeps 8 split variables, which leaves 32 round variables;
    the round count [1 << 32] is undefined, and whatever 32-bit value the
    field [rounds] holds, the rounds have fewer positions than there are
    input vectors, so some vector is never simulated. *)
Theorem rounds_miss_inputs :
  calculate_split_var 40 (2 ^ 23) = Ret 8 /\
  compute_rounds 40 8 = Undef /\
  (forall rd, 0 <= rd < u32_modulus -> rd * 2 ^ 8 < 2 ^ 40).
Proof.
  split; [vm_compute; reflexivity |].
  split; [vm_compute; reflexivity |].
  intros rd Hrd. unfold u32_modulus in Hrd. lia.
Qed.

(* ------------------------------------------------------------------ *)
(** ** The verdict of a run *)

Lemma bits_of_list_nonneg (l : list bool) : 0 <= bits_of_list l.
Proof.
  induction l as [| b l IH]; cbn [bits_of_list]; [lia |].
  destruct b; simpl Z.b2z; lia.
Qed.

Lemma bits_of_list_zero (l : list bool) :
  bits_of_list l = 0 <-> forall b, In b l -> b = false.
Proof.
  induction l as [| b l IH]; cbn [bits_of_list].
  - split; [intros _ b [] | reflexivity].
  - pose proof (bits_of_list_nonneg l) as Hl. split.
    + intros Hz b' [<- | Hin].
      * destruct b; simpl Z.b2z in Hz; [lia | reflexivity].
      * apply IH; [| exact Hin]. destruct b; simpl Z.b2z in Hz; lia.
    + intros Hall. rewrite (Hall b) by (left; reflexivity).
      assert (Hrest : bits_of_list l = 0) by (apply IH; intros b' Hin; apply Hall; right; exact Hin).
      rewrite Hrest. reflexivity.
Qed.

(** A tabulated function is the zero table exactly when the function is 0
    at every position. *)
Lemma is_const0_tabulate (n : Z) (g : Z -> bool) :
  is_const0 (tabulate n g) = true <-> forall p, 0 <= p < 2 ^ n -> g p = false.
Proof.
  unfold is_const0, tabulate; simpl bits.
  rewrite Z.eqb_eq, bits_of_list_zero. split.
  - intros Hall p Hp. apply Hall. apply in_map_iff.
    exists (Z.to_nat p). split; [rewrite Z2Nat.id by lia; reflexivity |].
    apply in_seq. lia.
  - intros Hall b Hin. apply in_map_iff in Hin as (j & <- & Hj).
    apply in_seq in Hj. apply Hall. lia.
Qed.

Lemma scan_outputs_verdict (r : Z) (tt_po : list dynamic_truth_table) (k : nat) :
  fst (scan_outputs r k tt_po) = forallb is_const0 tt_po.
Proof.
  revert k. induction tt_po as [| it rest IH]; intros k; [reflexivity |].
  cbn [scan_outputs forallb].
  destruct (is_const0 it); cbn [Bool.eqb andb]; [| reflexivity].
  specialize (IH (S k)). destruct (scan_outputs r (S k) rest) as [b tr].
  exact IH.
Qed.

Section Verdict.
Context {Ntk : Type} `{Network Ntk}.

(** The loop returns [true] exactly when all its rounds simulate to zero. *)
Lemma round_loop_verdict (ntk : Ntk) (sv : Z) (todo : nat) :
  forall r, 0 <= r -> r + Z.of_nat todo < u32_modulus ->
    (forall r', r <= r' < r + Z.of_nat todo ->
       exists tt_po, simulate ntk {| _split_var := sv; _round := r' |} = Ret tt_po) ->
    exists b tr,
      round_loop ntk sv todo r = Ret (b, tr) /\
      (b = true <->
       forall r', r <= r' < r + Z.of_nat todo -> round_all_zero ntk sv r').
Proof.
  induction todo as [| todo IH]; intros r Hr Hlt Hdef.
  - exists true, []. split; [reflexivity |]. split; [intros _ r' Hr'; lia | reflexivity].
  - destruct (Hdef r) as (tt_po & Hsim); [lia |].
    destruct (IH (r + 1)) as (b' & tr' & Hloop & Hiff);
      [lia | lia | intros r' Hr'; apply Hdef; lia |].
    destruct (forallb is_const0 tt_po) eqn:Hz.
    + assert (Hzero : round_all_zero ntk sv r) by (exists tt_po; split; assumption).
      destruct (round_loop_skip ntk sv r todo) as (tr1 & _ & Hstep); [lia | lia | exact Hzero |].
      exists b', (tr1 ++ tr'). split; [rewrite Hstep, Hloop; reflexivity |].
      rewrite Hiff. split.
      * intros Hall r' Hr'. destruct (Z.eq_dec r' r) as [-> | Hne]; [exact Hzero |].
        apply Hall. lia.
      * intros Hall r' Hr'. apply Hall. lia.
    + pose proof (scan_outputs_verdict r tt_po 0) as Hscan.
      rewrite Hz in Hscan.
      exists false. destruct (scan_outputs r 0 tt_po) as [clean tr] eqn:Hso.
      simpl in Hscan. subst clean.
      exists (EvSimulate r :: tr). split.
      * cbn [round_loop]. rewrite Hsim. cbn [bind]. rewrite Hso. reflexivity.
      * split; [discriminate |]. intros Hall. exfalso.
        destruct (Hall r) as (tt_po' & Hsim' & Hz'); [lia |].
        rewrite Hsim in Hsim'. injection Hsim' as <-. congruence.
Qed.

(** The contract of the simulation engine (section 6 of the specification):
    the table of an output holds, at every position, the value of the
    output's function on the input vector the primary-input tables spell
    there. *)
Variable outputs : Ntk -> list (Z -> bool).
Hypothesis simulate_outputs :
  forall ntk sim pis,
    pi_tables sim (Z.to_nat (num_pis ntk)) = Ret pis ->
    simulate ntk sim
    = Ret (map (fun f => tabulate (_split_var sim) (fun p => f (vector_at pis p)))
               (outputs ntk)).

(** X3: with an engine that meets the contract, a run whose split width and round
    count are defined returns [true] exactly when every primary output of
    the network is 0 on every input vector. *)
Theorem run_verdict (ntk : Ntk) (sv rd : Z) :
  calculate_split_var (num_pis ntk) (size ntk) = Ret sv ->
  compute_rounds (num_pis ntk) sv = Ret rd ->
  exists b tr,
    run ntk = Ret (b, {| split_var := sv; rounds := rd |}, tr) /\
    (b = true <->
     forall f v, In f (outputs ntk) -> 0 <= v < 2 ^ num_pis ntk -> f v = false).
Proof.
  intros Hsv Hrd.
  pose proof (num_pis_u32 ntk) as Hpis.
  set (n := num_pis ntk) in *.
  pose proof Hsv as Hrange.
  apply calculate_split_var_range in Hrange as [Hrange _]; [| lia].
  pose proof Hrd as Hpow.
  apply compute_rounds_ret in Hpow as [Hsh ->]; [| lia | lia].
  assert (Hlt : 2 ^ (n - sv) < u32_modulus) by (apply pow2_lt_modulus; lia).
  assert (Hpos : 0 < 2 ^ (n - sv)) by (apply Z.pow_pos_nonneg; lia).
  (* what one round simulates *)
  assert (Hround : forall r, 0 <= r < 2 ^ (n - sv) ->
            exists pis,
              simulate ntk {| _split_var := sv; _round := r |}
              = Ret (map (fun f => tabulate sv (fun p => f (vector_at pis p))) (outputs ntk)) /\
              forall p, 0 <= p < 2 ^ sv ->
                vector_at pis p = round_vector sv (2 ^ (n - sv)) r p).
  { intros r Hr.
    set (sim := {| _split_var := sv; _round := r |}).
    assert (Hpi : pi_tables sim (Z.to_nat n)
                  = Ret (map (pi_table sim) (map Z.of_nat (seq 0 (Z.to_nat n)))))
      by (apply pi_tables_ret; simpl; lia).
    eexists. split; [apply (simulate_outputs ntk sim _ Hpi) |].
    intros p Hp.
    pose proof (input_vector_round_vector sv r p (Z.to_nat n)) as Hvec.
    rewrite Z2Nat.id in Hvec by lia.
    unfold input_vector in Hvec. fold sim in Hvec. rewrite Hpi in Hvec. cbn [bind] in Hvec.
    specialize (Hvec ltac:(lia) ltac:(lia) Hr Hp). injection Hvec as Hvec. exact Hvec. }
  destruct (round_loop_verdict ntk sv (Z.to_nat (2 ^ (n - sv))) 0) as (b & tr & Hloop & Hiff);
    [lia | lia | |].
  { intros r Hr. destruct (Hround r) as (pis & Hsim & _); [lia |]. eexists. exact Hsim. }
  exists b, tr. split.
  { unfold run. fold n. rewrite Hsv. cbn [bind]. rewrite Hrd. cbn [bind].
    rewrite Hloop. reflexivity. }
  rewrite Hiff. split.
  - intros Hall f v Hf Hv.
    destruct (round_vector_surjective sv (n - sv) v) as (r & p & Hr & Hp & Heq);
      [lia | lia | replace (sv + (n - sv)) with n by lia; exact Hv |].
    destruct (Hall r) as (tt_po & Hsim & Hz); [lia |].
    destruct (Hround r Hr) as (pis & Hsim' & Hvec).
    rewrite Hsim' in Hsim. injection Hsim as <-.
    rewrite forallb_forall in Hz.
    specialize (Hz (tabulate sv (fun p => f (vector_at pis p)))).
    rewrite is_const0_tabulate in Hz.
    rewrite <- Heq, <- (Hvec p Hp).
    apply Hz; [| exact Hp].
    apply in_map_iff. exists f. split; [reflexivity | exact Hf].
  - intros Hall r Hr.
    destruct (Hround r) as (pis & Hsim & Hvec); [lia |].
    eexists. split; [exact Hsim |].
    apply forallb_forall. intros t Hin.
    apply in_map_iff in Hin as (f & <- & Hf).
    apply is_const0_tabulate. intros p Hp.
    rewrite (Hvec p Hp). apply Hall; [exact Hf |].
    pose proof (round_vector_range sv (n - sv) r p) as Hrg.
    replace (sv + (n - sv)) with n in Hrg by lia.
    apply Hrg; lia.
Qed.
End Verdict.

Lemma run_verdict_witness :
  exists b tr,
    run late_difference = Ret (b, {| split_var := 6; rounds := 4 |}, tr) /\
    (b = true <->
     forall f v, In f (fn_pos late_difference) ->
                 0 <= v < 2 ^ num_pis late_difference -> f v = false).
Proof.
  apply (run_verdict fn_pos).
  - intros ntk sim pis Hpis. cbn [simulate fn_Network]. unfold fn_simulate.
    change (wrap (fn_pis ntk)) with (num_pis ntk).
    rewrite Hpis. reflexivity.
  - vm_compute. reflexivity.
  - vm_compute. reflexivity.
Defined.

(* ------------------------------------------------------------------ *)
(** ** The shape of a run *)

Lemma forallb_false_split {A : Type} (f : A -> bool) (l : list A) :
  forallb f l = false ->
  exists pre x post,
    l = pre ++ x :: post /\ forallb f pre = true /\ f x = false.
Proof.
  induction l as [| a l IH]; cbn [forallb]; [discriminate |].
  destruct (f a) eqn:Ha; cbn [andb].
  - intros Hl. destruct (IH Hl) as (pre & x & post & -> & Hpre & Hx).
    exists (a :: pre), x, post. cbn [forallb app]. rewrite Ha.
    split; [reflexivity |]. split; assumption.
  - intros _. exists [], a, l. split; [reflexivity |]. split; [reflexivity | exact Ha].
Qed.

Lemma simulated_rounds_app (tr1 tr2 : list event) :
  simulated_rounds (tr1 ++ tr2) = simulated_rounds tr1 ++ simulated_rounds tr2.
Proof.
  induction tr1 as [| e tr1 IH]; [reflexivity |].
  destruct e; cbn [app simulated_rounds]; rewrite IH; reflexivity.
Qed.

(** The scan of a round's outputs calls no simulation. *)
Lemma simulated_rounds_scan (r : Z) (tt_po : list dynamic_truth_table) (k : nat) :
  simulated_rounds (snd (scan_outputs r k tt_po)) = [].
Proof.
  revert k. induction tt_po as [| it rest IH]; intros k; [reflexivity |].
  cbn [scan_outputs]. destruct (Bool.eqb (is_const0 it) false); [reflexivity |].
  specialize (IH (S k)). destruct (scan_outputs r (S k) rest) as [b tr].
  exact IH.
Qed.

Lemma rounds_from_succ (r : Z) (k : nat) :
  rounds_from r (S k) = r :: rounds_from (r + 1) k.
Proof.
  unfold rounds_from. cbn [seq map]. rewrite Z.add_0_r. f_equal.
  rewrite <- seq_shift, map_map. apply map_ext.
  intros i. lia.
Qed.

Section RunShape.
Context {Ntk : Type} `{Network Ntk}.

(** One pass of the outer loop, whatever the round simulates to. *)
Lemma round_loop_unfold (ntk : Ntk) (sv r : Z) (todo : nat)
      (tt_po : list dynamic_truth_table) :
  0 <= r -> r + 1 < u32_modulus ->
  simulate ntk {| _split_var := sv; _round := r |} = Ret tt_po ->
  round_loop ntk sv (S todo) r
  = if forallb is_const0 tt_po
    then '(b, tr') <- round_loop ntk sv todo (r + 1) ;;
         Ret (b, EvSimulate r :: snd (scan_outputs r 0 tt_po) ++ tr')
    else Ret (false, EvSimulate r :: snd (scan_outputs r 0 tt_po)).
Proof.
  intros Hr Hlt Hsim. cbn [round_loop]. rewrite Hsim. cbn [bind].
  rewrite u32_add_small by lia.
  pose proof (scan_outputs_verdict r tt_po 0) as Hv.
  destruct (scan_outputs r 0 tt_po) as [clean tr]. cbn [fst snd] in *.
  subst clean. reflexivity.
Qed.

(** The loop returns [false] only on finding a table that is not zero. *)
Lemma round_loop_false (ntk : Ntk) (sv : Z) (todo : nat) :
  forall r tr, 0 <= r -> r + Z.of_nat todo < u32_modulus ->
    round_loop ntk sv todo r = Ret (false, tr) ->
    exists r0 pre t post,
      r <= r0 < r + Z.of_nat todo /\
      (forall r', r <= r' < r0 -> round_all_zero ntk sv r') /\
      simulate ntk {| _split_var := sv; _round := r0 |} = Ret (pre ++ t :: post) /\
      forallb is_const0 pre = true /\
      is_const0 t = false.
Proof.
  induction todo as [| todo IH]; intros r tr Hr Hlt Hloop; [discriminate |].
  destruct (simulate ntk {| _split_var := sv; _round := r |}) as [tt_po | |] eqn:Hsim.
  2,3: cbn [round_loop] in Hloop; rewrite Hsim in Hloop; discriminate.
  rewrite (round_loop_unfold ntk sv r todo tt_po) in Hloop by (assumption || lia).
  destruct (forallb is_const0 tt_po) eqn:Hz.
  - destruct (round_loop ntk sv todo (r + 1)) as [[b tr'] | |] eqn:Hrest;
      cbn [bind] in Hloop; try discriminate.
    injection Hloop as -> _.
    destruct (IH (r + 1) tr') as (r0 & pre & t & post & Hr0 & Hzero & Hsim0 & Hpre & Ht);
      [lia | lia | exact Hrest |].
    exists r0, pre, t, post. split; [lia |]. split; [| auto].
    intros r' Hr'. destruct (Z.eq_dec r' r) as [-> | Hne].
    + exists tt_po. split; assumption.
    + apply Hzero. lia.
  - apply forallb_false_split in Hz as (pre & t & post & -> & Hpre & Ht).
    exists r, pre, t, post. split; [lia |]. split; [intros r' Hr'; lia |].
    split; [exact Hsim |]. split; assumption.
Qed.

(** The loop simulates consecutive rounds, all of them when it returns
    [true] and at least one when it returns [false]. *)
Lemma round_loop_rounds (ntk : Ntk) (sv : Z) (todo : nat) :
  forall r b tr, 0 <= r -> r + Z.of_nat todo < u32_modulus ->
    round_loop ntk sv todo r = Ret (b, tr) ->
    exists k,
      (k <= todo)%nat /\
      simulated_rounds tr = rounds_from r k /\
      (b = true -> k = todo) /\
      (b = false -> (0 < k)%nat).
Proof.
  induction todo as [| todo IH]; intros r b tr Hr Hlt Hloop.
  - injection Hloop as <- <-. exists 0%nat.
    split; [lia |]. split; [reflexivity |]. split; [reflexivity | discriminate].
  - destruct (simulate ntk {| _split_var := sv; _round := r |}) as [tt_po | |] eqn:Hsim.
    2,3: cbn [round_loop] in Hloop; rewrite Hsim in Hloop; discriminate.
    rewrite (round_loop_unfold ntk sv r todo tt_po) in Hloop by (assumption || lia).
    destruct (forallb is_const0 tt_po).
    + destruct (round_loop ntk sv todo (r + 1)) as [[b' tr'] | |] eqn:Hrest;
        cbn [bind] in Hloop; try discriminate.
      injection Hloop as <- <-.
      destruct (IH (r + 1) b' tr') as (k & Hk & Hsr & Htrue & Hfalse);
        [lia | lia | exact Hrest |].
      exists (S k). split; [lia |]. split.
      * cbn [simulated_rounds]. rewrite simulated_rounds_app, simulated_rounds_scan.
        cbn [app]. rewrite Hsr, rounds_from_succ. reflexivity.
      * split; [intros Hb; rewrite (Htrue Hb); reflexivity | intros _; lia].
    + injection Hloop as <- <-. exists 1%nat.
      split; [lia |]. split.
      * cbn [simulated_rounds]. rewrite simulated_rounds_scan.
        unfold rounds_from. cbn [seq map]. rewrite Z.add_0_r. reflexivity.
      * split; [discriminate | intros _; lia].
Qed.

(** When no round yields any output table, the loop runs every round and
    tests nothing. *)
Lemma round_loop_no_outputs (ntk : Ntk) (sv : Z) (todo : nat) :
  forall r, 0 <= r -> r + Z.of_nat todo < u32_modulus ->
    (forall r', r <= r' < r + Z.of_nat todo ->
       simulate ntk {| _split_var := sv; _round := r' |} = Ret []) ->
    round_loop ntk sv todo r = Ret (true, map EvSimulate (rounds_from r todo)).
Proof.
  induction todo as [| todo IH]; intros r Hr Hlt Hsim; [reflexivity |].
  rewrite (round_loop_unfold ntk sv r todo []) by (try apply Hsim; lia).
  cbn [forallb scan_outputs snd app].
  rewrite IH by (try lia; intros r' Hr'; apply Hsim; lia).
  cbn [bind]. rewrite rounds_from_succ. reflexivity.
Qed.

(** The statistics and the inner loop of a run that is defined. *)
Lemma run_inversion (ntk : Ntk) (b : bool) (st : simulation_cec_stats) (tr : list event) :
  run ntk = Ret (b, st, tr) ->
  0 <= split_var st <= num_pis ntk /\
  rounds st = 2 ^ (num_pis ntk - split_var st) /\
  0 < rounds st < u32_modulus /\
  round_loop ntk (split_var st) (Z.to_nat (rounds st)) 0 = Ret (b, tr).
Proof.
  intros Hrun. pose proof (num_pis_u32 ntk) as Hpis.
  unfold run in Hrun.
  destruct (calculate_split_var (num_pis ntk) (size ntk)) as [sv | |] eqn:Hsv;
    cbn [bind] in Hrun; try discriminate.
  destruct (compute_rounds (num_pis ntk) sv) as [rd | |] eqn:Hrd;
    cbn [bind] in Hrun; try discriminate.
  destruct (round_loop ntk sv (Z.to_nat rd) 0) as [[b' tr'] | |] eqn:Hloop;
    cbn [bind] in Hrun; try discriminate.
  injection Hrun as <- <- <-. cbn [split_var rounds].
  apply calculate_split_var_range in Hsv as [Hsv _]; [| lia].
  apply compute_rounds_ret in Hrd as [Hsh ->]; [| lia | lia].
  split; [lia |]. split; [reflexivity |]. split; [| exact Hloop].
  split; [apply Z.pow_pos_nonneg; lia | apply pow2_lt_modulus; lia].
Qed.

(** X6: [run] returns [false] only with evidence: some round below the
    round count simulates to a table that is not identically zero, every
    earlier round simulates to zero tables only, and so do the outputs before
    that table in its round. *)
Theorem run_false_has_evidence (ntk : Ntk) (st : simulation_cec_stats) (tr : list event) :
  run ntk = Ret (false, st, tr) ->
  exists r0 pre t post,
    0 <= r0 < rounds st /\
    (forall r, 0 <= r < r0 -> round_all_zero ntk (split_var st) r) /\
    simulate ntk {| _split_var := split_var st; _round := r0 |} = Ret (pre ++ t :: post) /\
    forallb is_const0 pre = true /\
    is_const0 t = false.
Proof.
  intros Hrun. apply run_inversion in Hrun as (_ & _ & Hrd & Hloop).
  apply round_loop_false in Hloop; [| lia | lia].
  destruct Hloop as (r0 & pre & t & post & Hr0 & Hrest).
  exists r0, pre, t, post. split; [lia | exact Hrest].
Qed.

(** X7: a run simulates the rounds in increasing order from round 0, each
    at most once and none skipped: all [rounds] of them when it returns
    [true], and a non-empty initial stretch of them when it returns [false]. *)
Theorem run_rounds_in_order (ntk : Ntk) (b : bool) (st : simulation_cec_stats)
        (tr : list event) :
  run ntk = Ret (b, st, tr) ->
  exists k,
    simulated_rounds tr = rounds_from 0 k /\
    Z.of_nat k <= rounds st /\
    (b = true -> Z.of_nat k = rounds st) /\
    (b = false -> (0 < k)%nat).
Proof.
  intros Hrun. apply run_inversion in Hrun as (_ & _ & Hrd & Hloop).
  apply round_loop_rounds in Hloop; [| lia | lia].
  destruct Hloop as (k & Hk & Hsr & Htrue & Hfalse).
  exists k. split; [exact Hsr |]. split; [lia |].
  split; [intros Hb; rewrite (Htrue Hb); lia | exact Hfalse].
Qed.

(** X8: on a network without primary outputs, where every round simulates
    to an empty list of tables, a run whose split width and round count are
    defined returns [true] after simulating every round, and tests nothing. *)
Theorem run_without_outputs (ntk : Ntk) (sv rd : Z) :
  calculate_split_var (num_pis ntk) (size ntk) = Ret sv ->
  compute_rounds (num_pis ntk) sv = Ret rd ->
  (forall r, 0 <= r < rd -> simulate ntk {| _split_var := sv; _round := r |} = Ret []) ->
  run ntk
  = Ret (true, {| split_var := sv; rounds := rd |},
         map EvSimulate (rounds_from 0 (Z.to_nat rd))).
Proof.
  intros Hsv Hrd Hsim. pose proof (num_pis_u32 ntk) as Hpis.
  pose proof Hsv as Hrange.
  apply calculate_split_var_range in Hrange as [Hrange _]; [| lia].
  pose proof Hrd as Hpow.
  apply compute_rounds_ret in Hpow as [Hsh Hpow]; [| lia | lia].
  assert (Hlt : 0 < rd < u32_modulus).
  { subst rd. split; [apply Z.pow_pos_nonneg; lia | apply pow2_lt_modulus; lia]. }
  unfold run. rewrite Hsv. cbn [bind]. rewrite Hrd. cbn [bind].
  rewrite round_loop_no_outputs by (try lia; intros r' Hr'; apply Hsim; lia).
  reflexivity.
Qed.
End RunShape.

Lemma run_false_has_evidence_witness :
  exists r0 pre t post,
    0 <= r0 < 4 /\
    (forall r, 0 <= r < r0 -> round_all_zero late_difference 6 r) /\
    simulate late_difference {| _split_var := 6; _round := r0 |} = Ret (pre ++ t :: post) /\
    forallb is_const0 pre = true /\
    is_const0 t = false.
Proof.
  apply (run_false_has_evidence late_difference {| split_var := 6; rounds := 4 |}
           [EvSimulate 0; EvIsConst0 0 0; EvIsConst0 0 1;
            EvSimulate 1; EvIsConst0 1 0; EvIsConst0 1 1;
            EvSimulate 2; EvIsConst0 2 0; EvIsConst0 2 1]).
  vm_compute. reflexivity.
Defined.

Lemma run_rounds_in_order_witness :
  exists k,
    simulated_rounds [EvSimulate 0; EvIsConst0 0 0; EvIsConst0 0 1;
                      EvSimulate 1; EvIsConst0 1 0; EvIsConst0 1 1;
                      EvSimulate 2; EvIsConst0 2 0; EvIsConst0 2 1]
    = rounds_from 0 k /\
    Z.of_nat k <= 4 /\
    (false = true -> Z.of_nat k = 4) /\
    (false = false -> (0 < k)%nat).
Proof.
  apply (run_rounds_in_order late_difference false {| split_var := 6; rounds := 4 |}).
  vm_compute. reflexivity.
Defined.

Lemma run_without_outputs_witness :
  run (const_network 8 (2 ^ 26) 0)
  = Ret (true, {| split_var := 6; rounds := 4 |},
         map EvSimulate (rounds_from 0 (Z.to_nat 4))).
Proof.
  apply (run_without_outputs (const_network 8 (2 ^ 26) 0) 6 4).
  - vm_compute. reflexivity.
  - vm_compute. reflexivity.
  - intros r Hr. assert (Hc : r = 0 \/ r = 1 \/ r = 2 \/ r = 3) by lia.
    destruct Hc as [-> | [-> | [-> | ->]]]; vm_compute; reflexivity.
Defined.

(* ------------------------------------------------------------------ *)
(** ** Where the calculator is defined, and how it varies *)

(** Up to 34 inputs the loop never reaches an undefined shift. *)
Lemma split_var_loop_returns (fuel : nat) (n_pis num_nodes m : Z) :
  n_pis <= 34 -> 7 <= m <= n_pis + 1 -> 36 <= Z.of_nat fuel + m ->
  exists sv, split_var_loop fuel n_pis num_nodes m = Ret sv.
Proof.
  intros Hpis. revert m.
  induction fuel as [| fuel IH]; intros m Hm Hfuel; [lia |].
  destruct (Z.le_gt_cases m n_pis) as [Hle | Hgt].
  - rewrite split_var_loop_step by lia.
    destruct (bound_u32 num_nodes m); [apply IH; lia | eexists; reflexivity].
  - rewrite split_var_loop_exit by (unfold u32_modulus; lia).
    eexists. reflexivity.
Qed.

(** Without overflow: the value returned is 6 or satisfies the exact bound,
    and the next candidate, if there is one, breaks it. *)
Lemma calculate_split_var_last (n_pis num_nodes : Z) :
  0 <= n_pis -> 0 < num_nodes -> 32 + 16 * num_nodes < u32_modulus ->
  exists sv,
    calculate_split_var n_pis num_nodes = Ret sv /\
    (n_pis <= 6 -> sv = n_pis) /\
    (6 < n_pis ->
       6 <= sv <= n_pis /\
       (sv = 6 \/ bound_holds num_nodes sv) /\
       (sv < n_pis -> ~ bound_holds num_nodes (sv + 1))).
Proof.
  intros Hpis Hn Hno. unfold calculate_split_var.
  destruct (Z.leb_spec n_pis 6) as [Hle | Hgt].
  - exists n_pis. split; [reflexivity |]. split; [reflexivity | lia].
  - destruct (split_var_loop_exact split_var_fuel n_pis num_nodes 7)
      as (sv & Hret & Hrange & Hlast & Hnext);
      try (unfold split_var_fuel; lia).
    exists sv. split; [exact Hret |]. split; [lia |].
    intros _. split; [lia |]. split; [| exact Hnext].
    destruct Hlast as [-> | Hlast]; [left; reflexivity | right; exact Hlast].
Qed.

Lemma bound_holds_fewer_nodes (n n' m : Z) :
  0 <= n <= n' -> bound_holds n' m -> bound_holds n m.
Proof.
  unfold bound_holds. intros Hn Hb.
  assert (Hp : 0 <= 2 ^ (m - 3)) by (apply Z.pow_nonneg; lia).
  nia.
Qed.

(** X9: for a network of at most 34 primary inputs the statistics are
    defined whatever the node count, also where the 32-bit bound wraps: the
    calculator returns a split width between [min num_pis 6] and [num_pis],
    and the round count is [2 ^ (num_pis - split_var)], at most [2 ^ 28]. *)
Theorem stats_defined_up_to_34_inputs (n_pis num_nodes : Z) :
  0 <= n_pis <= 34 ->
  exists sv,
    calculate_split_var n_pis num_nodes = Ret sv /\
    (n_pis <= 6 -> sv = n_pis) /\
    (6 < n_pis -> 6 <= sv <= n_pis) /\
    compute_rounds n_pis sv = Ret (2 ^ (n_pis - sv)) /\
    2 ^ (n_pis - sv) <= 2 ^ 28.
Proof.
  intros Hpis.
  assert (Hex : exists sv, calculate_split_var n_pis num_nodes = Ret sv).
  { unfold calculate_split_var.
    destruct (Z.leb_spec n_pis 6) as [Hle | Hgt]; [eexists; reflexivity |].
    apply split_var_loop_returns; unfold split_var_fuel; lia. }
  destruct Hex as (sv & Hsv). exists sv. split; [exact Hsv |].
  pose proof Hsv as Hrange.
  apply calculate_split_var_range in Hrange as [Hrange Hbig]; [| lia].
  assert (Hsmall : n_pis <= 6 -> sv = n_pis).
  { intros Hle. unfold calculate_split_var in Hsv.
    replace (n_pis <=? 6) with true in Hsv by (symmetry; apply Z.leb_le; lia).
    injection Hsv as <-. reflexivity. }
  split; [exact Hsmall |]. split; [intros Hgt; specialize (Hbig Hgt); lia |].
  assert (Hdiff : 0 <= n_pis - sv <= 28).
  { destruct (Z.le_gt_cases n_pis 6) as [Hle | Hgt].
    - rewrite (Hsmall Hle). lia.
    - specialize (Hbig Hgt). lia. }
  split; [apply compute_rounds_defined; lia |].
  apply Z.pow_le_mono_r; lia.
Qed.

Lemma stats_defined_up_to_34_inputs_witness :
  exists sv,
    calculate_split_var 34 (2 ^ 28) = Ret sv /\
    (34 <= 6 -> sv = 34) /\
    (6 < 34 -> 6 <= sv <= 34) /\
    compute_rounds 34 sv = Ret (2 ^ (34 - sv)) /\
    2 ^ (34 - sv) <= 2 ^ 28.
Proof. apply (stats_defined_up_to_34_inputs 34 (2 ^ 28)). lia. Defined.

(** X10: for every input count the entry point admits (at most 40) and
    every node count from 1 to [2^23 - 1], the statistics are defined: the
    calculator returns a split width that leaves at most 31 round variables,
    and the round count is exactly [2 ^ (num_pis - split_var)]. *)
Theorem stats_defined_below_2p23_nodes (n_pis num_nodes : Z) :
  0 <= n_pis <= 40 -> 0 < num_nodes < 2 ^ 23 ->
  exists sv,
    calculate_split_var n_pis num_nodes = Ret sv /\
    0 <= sv <= n_pis /\
    n_pis - sv <= 31 /\
    compute_rounds n_pis sv = Ret (2 ^ (n_pis - sv)).
Proof.
  intros Hpis Hn.
  change (2 ^ 23) with 8388608 in Hn.
  destruct (calculate_split_var_last n_pis num_nodes) as (sv & Hsv & Hsmall & Hbig);
    [lia | lia | unfold u32_modulus; lia |].
  exists sv. split; [exact Hsv |].
  assert (Hrange : 0 <= sv <= n_pis /\ n_pis - sv <= 31).
  { destruct (Z.le_gt_cases n_pis 6) as [Hle | Hgt]; [rewrite (Hsmall Hle); lia |].
    destruct (Hbig Hgt) as (Hrange & _ & Hnext).
    split; [lia |].
    destruct (Z.le_gt_cases 9 sv) as [H9 | H9]; [lia |].
    destruct (Z.le_gt_cases n_pis 37) as [H37 | H37]; [lia |].
    exfalso. apply Hnext; [lia |].
    apply (bound_holds_antitone num_nodes (sv + 1) 9); [lia | lia |].
    unfold bound_holds. change (2 ^ (9 - 3)) with 64. change (2 ^ 29) with 536870912.
    lia. }
  split; [apply Hrange |]. split; [apply Hrange |].
  apply compute_rounds_defined; lia.
Qed.

Lemma stats_defined_below_2p23_nodes_witness :
  exists sv,
    calculate_split_var 40 (2 ^ 23 - 1) = Ret sv /\
    0 <= sv <= 40 /\
    40 - sv <= 31 /\
    compute_rounds 40 sv = Ret (2 ^ (40 - sv)).
Proof. apply (stats_defined_below_2p23_nodes 40 (2 ^ 23 - 1)); simpl; lia. Defined.

(** X11: without overflow the split width never grows with the node count
    and never shrinks with the input count. *)
Theorem calculate_split_var_monotone (n_pis n_pis' num_nodes num_nodes' : Z) :
  0 <= n_pis <= n_pis' ->
  0 < num_nodes <= num_nodes' -> 32 + 16 * num_nodes' < u32_modulus ->
  exists sv_few sv_many sv_wide,
    calculate_split_var n_pis num_nodes = Ret sv_few /\
    calculate_split_var n_pis num_nodes' = Ret sv_many /\
    calculate_split_var n_pis' num_nodes = Ret sv_wide /\
    sv_many <= sv_few <= sv_wide.
Proof.
  intros Hpis Hn Hno.
  destruct (calculate_split_var_last n_pis num_nodes) as (a & Ha & Ha6 & Ha7); try lia.
  destruct (calculate_split_var_last n_pis num_nodes') as (b & Hb & Hb6 & Hb7); try lia.
  destruct (calculate_split_var_last n_pis' num_nodes) as (c & Hc & Hc6 & Hc7); try lia.
  exists a, b, c. repeat (split; [assumption |]).
  destruct (Z.le_gt_cases n_pis 6) as [Hle | Hgt].
  - rewrite (Ha6 Hle), (Hb6 Hle). split; [lia |].
    destruct (Z.le_gt_cases n_pis' 6) as [Hle' | Hgt']; [rewrite (Hc6 Hle'); lia |].
    destruct (Hc7 Hgt') as (Hc_range & _). lia.
  - destruct (Ha7 Hgt) as (Ha_range & Ha_last & Ha_next).
    destruct (Hb7 Hgt) as (Hb_range & Hb_last & _).
    destruct (Hc7 ltac:(lia)) as (Hc_range & _ & Hc_next).
    split.
    + destruct (Z.le_gt_cases b a) as [Hba | Hba]; [exact Hba | exfalso].
      destruct Hb_last as [-> | Hb_last]; [lia |].
      apply Ha_next; [lia |].
      apply (bound_holds_antitone num_nodes (a + 1) b); [lia | lia |].
      apply (bound_holds_fewer_nodes num_nodes num_nodes' b); [lia | exact Hb_last].
    + destruct (Z.le_gt_cases a c) as [Hac | Hac]; [exact Hac | exfalso].
      destruct Ha_last as [-> | Ha_last]; [lia |].
      apply Hc_next; [lia |].
      apply (bound_holds_antitone num_nodes (c + 1) a); [lia | lia | exact Ha_last].
Qed.

Lemma calculate_split_var_monotone_witness :
  exists sv_few sv_many sv_wide,
    calculate_split_var 20 1000 = Ret sv_few /\
    calculate_split_var 20 100000 = Ret sv_many /\
    calculate_split_var 30 1000 = Ret sv_wide /\
    sv_many <= sv_few <= sv_wide.
Proof.
  apply (calculate_split_var_monotone 20 30 1000 100000); unfold u32_modulus; lia.
Defined.

(* ------------------------------------------------------------------ *)
(** ** Negation in the round simulator *)

Lemma bits_tt_not_tt_not (t : dynamic_truth_table) :
  has_width t (num_vars t) -> tt_not (tt_not t) = t.
Proof.
  intros [_ Hhigh]. destruct t as [n b]. unfold tt_not; cbn [num_vars bits] in *.
  f_equal. apply Z.bits_inj'. intros p Hp.
  assert (H0 : 0 <= 2 ^ n) by (apply Z.pow_nonneg; lia).
  rewrite !Z.ldiff_spec, testbit_ones_width by lia.
  destruct (Z.ltb_spec p (2 ^ n)) as [Hlt | Hge].
  - cbn [andb negb]. apply negb_involutive.
  - specialize (Hhigh p Hge). unfold get_bit in Hhigh; cbn [bits] in Hhigh.
    rewrite Hhigh. reflexivity.
Qed.

(** X12: on a table of the round's width, [compute_not] negates the value
    at every position of the table and undoes itself; it turns each constant
    table into the other. *)
Theorem compute_not_negates (sim : tt_simulator) (t : dynamic_truth_table) :
  has_width t (_split_var sim) ->
  (forall p, 0 <= p < 2 ^ _split_var sim ->
     get_bit (compute_not sim t) p = negb (get_bit t p)) /\
  compute_not sim (compute_not sim t) = t /\
  (forall value,
     compute_not sim (compute_constant sim value) = compute_constant sim (negb value)).
Proof.
  intros Hw. pose proof Hw as [Hn _]. split; [| split].
  - intros p Hp. unfold compute_not. rewrite get_bit_tt_not by lia. rewrite Hn.
    replace (p <? 2 ^ _split_var sim) with true by (symmetry; apply Z.ltb_lt; lia).
    reflexivity.
  - unfold compute_not. apply bits_tt_not_tt_not. rewrite Hn. exact Hw.
  - intros value. unfold compute_not, compute_constant.
    destruct value; cbn [negb]; [| reflexivity].
    apply bits_tt_not_tt_not. apply has_width_tt_create.
Qed.

Lemma compute_not_negates_witness :
  (forall p, 0 <= p < 2 ^ 3 ->
     get_bit (compute_not {| _split_var := 3; _round := 0 |}
                          (create_nth_var (tt_create 3) 1)) p
     = negb (get_bit (create_nth_var (tt_create 3) 1) p)) /\
  compute_not {| _split_var := 3; _round := 0 |}
    (compute_not {| _split_var := 3; _round := 0 |} (create_nth_var (tt_create 3) 1))
  = create_nth_var (tt_create 3) 1 /\
  (forall value,
     compute_not {| _split_var := 3; _round := 0 |}
                 (compute_constant {| _split_var := 3; _round := 0 |} value)
     = compute_constant {| _split_var := 3; _round := 0 |} (negb value)).
Proof.
  apply (compute_not_negates {| _split_var := 3; _round := 0 |}
           (create_nth_var (tt_create 3) 1)).
  apply (has_width_create_nth_var (tt_create 3) 1).
Defined.

(* ------------------------------------------------------------------ *)
(** ** The entry point as an equivalence check *)

Lemma xor_outputs_zero (v : Z) (l1 : list (Z -> bool)) :
  forall l2, length l1 = length l2 ->
    ((forall f, In f (xor_outputs l1 l2) -> f v = false)
     <-> map (fun f => f v) l1 = map (fun f => f v) l2).
Proof.
  induction l1 as [| f l1 IH]; intros [| g l2] Hlen; try discriminate.
  - split; [reflexivity | intros _ h []].
  - injection Hlen as Hlen. specialize (IH l2 Hlen).
    cbn [xor_outputs map]. split.
    + intros Hall. f_equal.
      * specialize (Hall _ (or_introl eq_refl)). cbn beta in Hall.
        destruct (f v), (g v); (discriminate || reflexivity).
      * apply IH. intros h Hin. apply Hall. right. exact Hin.
    + intros Heq h [<- | Hin].
      * injection Heq as Hfg _. rewrite Hfg. apply xorb_nilpotent.
      * injection Heq as _ Hrest. apply IH; assumption.
Qed.

Section Equivalence.
Context {Ntk : Type} `{Network Ntk}.

(** The contracts of the two collaborators (section 6 of the specification):
    the simulation engine tabulates each output on the vectors the
    primary-input tables spell, and a miter that is built has the inputs of
    the first network and outputs that are all 0 on a vector exactly when the
    two networks agree on it. *)
Variable outputs : Ntk -> list (Z -> bool).
Hypothesis simulate_outputs :
  forall ntk sim pis,
    pi_tables sim (Z.to_nat (num_pis ntk)) = Ret pis ->
    simulate ntk sim
    = Ret (map (fun f => tabulate (_split_var sim) (fun p => f (vector_at pis p)))
               (outputs ntk)).
Hypothesis miter_outputs :
  forall a b m,
    miter a b = Some m ->
    num_pis m = num_pis a /\
    forall v,
      (forall f, In f (outputs m) -> f v = false)
      <-> map (fun f => f v) (outputs a) = map (fun f => f v) (outputs b).

(** A round simulates to zero exactly when every output is 0 on the vectors
    of that round. *)
Lemma round_all_zero_iff (ntk : Ntk) (sv r : Z) :
  0 <= sv <= num_pis ntk -> num_pis ntk - sv < 32 ->
  0 <= r < 2 ^ (num_pis ntk - sv) ->
  (exists tt_po, simulate ntk {| _split_var := sv; _round := r |} = Ret tt_po) /\
  (round_all_zero ntk sv r
   <-> forall f p, In f (outputs ntk) -> 0 <= p < 2 ^ sv ->
         f (round_vector sv (2 ^ (num_pis ntk - sv)) r p) = false).
Proof.
  intros Hsv Hsh Hr.
  set (n := num_pis ntk) in *.
  set (sim := {| _split_var := sv; _round := r |}).
  assert (Hpi : pi_tables sim (Z.to_nat n)
                = Ret (map (pi_table sim) (map Z.of_nat (seq 0 (Z.to_nat n)))))
    by (apply pi_tables_ret; simpl; lia).
  pose proof (simulate_outputs ntk sim _ Hpi) as Hsim. cbn [_split_var sim] in Hsim.
  assert (Hvec : forall p, 0 <= p < 2 ^ sv ->
            vector_at (map (pi_table sim) (map Z.of_nat (seq 0 (Z.to_nat n)))) p
            = round_vector sv (2 ^ (n - sv)) r p).
  { intros p Hp.
    pose proof (input_vector_round_vector sv r p (Z.to_nat n)) as Hin.
    rewrite Z2Nat.id in Hin by lia.
    unfold input_vector in Hin. fold sim in Hin. rewrite Hpi in Hin. cbn [bind] in Hin.
    specialize (Hin ltac:(lia) ltac:(lia) Hr Hp). injection Hin as Hin. exact Hin. }
  subst sim.
  set (pis := map (pi_table {| _split_var := sv; _round := r |})
                  (map Z.of_nat (seq 0 (Z.to_nat n)))) in *.
  split; [eexists; exact Hsim |]. split.
  - intros (tt_po & Hsim' & Hz) f p Hf Hp.
    rewrite Hsim in Hsim'. injection Hsim' as <-.
    rewrite forallb_forall in Hz.
    specialize (Hz (tabulate sv (fun q => f (vector_at pis q)))).
    rewrite is_const0_tabulate in Hz.
    rewrite <- (Hvec p Hp).
    apply Hz; [| exact Hp].
    apply in_map_iff. exists f. split; [reflexivity | exact Hf].
  - intros Hall. eexists. split; [exact Hsim |].
    apply forallb_forall. intros t Hin.
    apply in_map_iff in Hin as (f & <- & Hf).
    apply is_const0_tabulate. intros p Hp. rewrite (Hvec p Hp). apply Hall; assumption.
Qed.

(** The outer loop over all rounds returns [true] exactly when every output
    is 0 on every input vector. *)
Lemma round_loop_checks_all_vectors (ntk : Ntk) (sv : Z) :
  0 <= sv <= num_pis ntk -> num_pis ntk - sv < 32 ->
  exists b tr,
    round_loop ntk sv (Z.to_nat (2 ^ (num_pis ntk - sv))) 0 = Ret (b, tr) /\
    (b = true <->
     forall f v, In f (outputs ntk) -> 0 <= v < 2 ^ num_pis ntk -> f v = false).
Proof.
  intros Hsv Hsh.
  set (n := num_pis ntk) in *.
  assert (Hlt : 2 ^ (n - sv) < u32_modulus) by (apply pow2_lt_modulus; lia).
  assert (Hpos : 0 < 2 ^ (n - sv)) by (apply Z.pow_pos_nonneg; lia).
  destruct (round_loop_verdict ntk sv (Z.to_nat (2 ^ (n - sv))) 0) as (b & tr & Hloop & Hiff);
    [lia | lia | |].
  { intros r Hr. apply (round_all_zero_iff ntk sv r); fold n; lia. }
  exists b, tr. split; [exact Hloop |]. rewrite Hiff. split.
  - intros Hall f v Hf Hv.
    destruct (round_vector_surjective sv (n - sv) v) as (r & p & Hr & Hp & <-);
      [lia | lia | replace (sv + (n - sv)) with n by lia; exact Hv |].
    apply (proj2 (round_all_zero_iff ntk sv r ltac:(fold n; lia) ltac:(fold n; lia)
                    ltac:(fold n; lia))); [| exact Hf | exact Hp].
    apply Hall. lia.
  - intros Hall r Hr.
    apply (proj2 (round_all_zero_iff ntk sv r ltac:(fold n; lia) ltac:(fold n; lia)
                    ltac:(fold n; lia))).
    intros f p Hf Hp. apply Hall; [exact Hf |].
    pose proof (round_vector_range sv (n - sv) r p) as Hrg.
    replace (sv + (n - sv)) with n in Hrg by lia.
    apply Hrg; lia.
Qed.

(** X13: with collaborators that meet their contracts, a call on an [ntk1]
    of at most 40 inputs whose miter is built, and whose split width and
    round count are defined, returns a boolean that is [true] exactly when
    the two networks have the same output values on every input vector; it
    stores the split width and the round count through a non-null [pst]
    whatever the verdict. *)
Theorem simulation_cec_decides_equivalence (ntk1 ntk2 m : Ntk)
        (pst : option simulation_cec_stats) (sv rd : Z) :
  num_pis ntk1 <= 40 ->
  miter ntk1 ntk2 = Some m ->
  calculate_split_var (num_pis m) (size m) = Ret sv ->
  compute_rounds (num_pis m) sv = Ret rd ->
  exists b tr,
    simulation_cec ntk1 ntk2 pst
    = Ret {| verdict := Some b;
             pst_after := store pst (Some {| split_var := sv; rounds := rd |});
             trace := tr |} /\
    (b = true <->
     forall v, 0 <= v < 2 ^ num_pis ntk1 ->
       map (fun f => f v) (outputs ntk1) = map (fun f => f v) (outputs ntk2)).
Proof.
  intros Hcap Hmiter Hsv Hrd.
  pose proof (num_pis_u32 m) as Hpis.
  destruct (miter_outputs ntk1 ntk2 m Hmiter) as [Hsame Hxor].
  pose proof Hsv as Hrange.
  apply calculate_split_var_range in Hrange as [Hrange _]; [| lia].
  pose proof Hrd as Hpow.
  apply compute_rounds_ret in Hpow as [Hsh ->]; [| lia | lia].
  destruct (round_loop_checks_all_vectors m sv Hrange Hsh) as (b & tr & Hloop & Hiff).
  exists b, tr. split.
  - rewrite (simulation_cec_runs ntk1 ntk2 m) by assumption.
    unfold run. rewrite Hsv. cbn [bind]. rewrite Hrd. cbn [bind].
    rewrite Hloop. reflexivity.
  - rewrite Hiff, <- Hsame. split.
    + intros Hall v Hv. apply Hxor. intros f Hf. apply Hall; assumption.
    + intros Hall f v Hf Hv. apply (proj2 (Hxor v)); [apply Hall; exact Hv | exact Hf].
Qed.
End Equivalence.

Lemma fn_simulate_outputs (ntk : fn_network) (sim : tt_simulator)
      (pis : list dynamic_truth_table) :
  pi_tables sim (Z.to_nat (num_pis ntk)) = Ret pis ->
  simulate ntk sim
  = Ret (map (fun f => tabulate (_split_var sim) (fun p => f (vector_at pis p)))
             (fn_pos ntk)).
Proof.
  intros Hpis. cbn [simulate fn_Network]. unfold fn_simulate.
  change (wrap (fn_pis ntk)) with (num_pis ntk).
  rewrite Hpis. reflexivity.
Qed.

Lemma fn_miter_outputs (a b m : fn_network) :
  miter a b = Some m ->
  num_pis m = num_pis a /\
  forall v,
    (forall f, In f (fn_pos m) -> f v = false)
    <-> map (fun f => f v) (fn_pos a) = map (fun f => f v) (fn_pos b).
Proof.
  cbn [miter fn_Network]. unfold fn_miter.
  destruct (wrap (fn_pis a) =? wrap (fn_pis b)); cbn [andb]; [| discriminate].
  destruct (Nat.eqb_spec (length (fn_pos a)) (length (fn_pos b))) as [Hlen | Hlen];
    [| discriminate].
  intros [= <-]. split; [reflexivity |].
  intros v. cbn [fn_pos]. apply xor_outputs_zero. exact Hlen.
Qed.

Lemma simulation_cec_decides_equivalence_witness :
  exists b tr,
    simulation_cec and2 xor2 (Some default_stats)
    = Ret {| verdict := Some b;
             pst_after := store (Some default_stats)
                                (Some {| split_var := 2; rounds := 1 |});
             trace := tr |} /\
    (b = true <->
     forall v, 0 <= v < 2 ^ num_pis and2 ->
       map (fun f => f v) (fn_pos and2) = map (fun f => f v) (fn_pos xor2)).
Proof.
  apply (simulation_cec_decides_equivalence fn_pos fn_simulate_outputs fn_miter_outputs
           and2 xor2
           {| fn_pis := 2; fn_nodes := 8;
              fn_pos := xor_outputs (fn_pos and2) (fn_pos xor2) |}).
  - vm_compute. discriminate.
  - reflexivity.
  - vm_compute. reflexivity.
  - vm_compute. reflexivity.
Defined.
